(** * corobus: a cooperative message bus for coroutines

    Shallow embedding of [1/corobus.cpp] and verification of its
    channel / waiter state machine.

    The bus is a vector of channel pointers, a channel is a bounded FIFO of
    [unsigned] with two intrusive lists of suspended coroutines, and the last
    error lives in one static cell.  Every function of the source becomes a
    computation in a state monad over that store; the coroutine runtime
    ([libcoro.h]) is external and appears as a log of the calls made to it.

    Conventions.  A channel id is the [int] of the source, a [Z]; results are
    [Z] as well (0, -1, or a count).  Sizes, indices and counts ([size_t],
    [unsigned]) are natural numbers, and the casts between them and [int]
    are taken to be exact: the model is about buses and batches with fewer
    than 2^31 entries.  Message values are only moved, never computed with,
    and are numbers of type [N].  A blocking operation is cut at its calls of
    [coro_suspend]; [coro_bus_channel_close] is cut at its [coro_yield]. *)

From Stdlib Require Import ZArith List Lia Bool.
From stdpp Require Import base tactics option list relations.

Open Scope Z_scope.

(** ** Data model *)

(** Modelled from the spec: the enumeration [coro_bus_error_code] is declared
    in [corobus.h], which is not part of the sources; the spec lists its three
    values (NONE, NO_CHANNEL, WOULD_BLOCK). *)
Inductive coro_bus_error_code : Set :=
| CORO_BUS_ERR_NONE
| CORO_BUS_ERR_NO_CHANNEL
| CORO_BUS_ERR_WOULD_BLOCK.

Definition error_code_eqb (a b : coro_bus_error_code) : bool :=
  match a, b with
  | CORO_BUS_ERR_NONE, CORO_BUS_ERR_NONE => true
  | CORO_BUS_ERR_NO_CHANNEL, CORO_BUS_ERR_NO_CHANNEL => true
  | CORO_BUS_ERR_WOULD_BLOCK, CORO_BUS_ERR_WOULD_BLOCK => true
  | _, _ => false
  end.

(** A coroutine handle ([struct coro *]).  A [wakeup_entry] lives on the
    stack of the one coroutine it names and a coroutine is parked in at most
    one call, so an entry is identified with its coroutine. *)
Definition coro : Set := nat.

(** Modelled from the spec: the runtime primitives of [libcoro.h]
    ([coro_wakeup], [coro_suspend], [coro_yield]) are external; a call to one
    of them is recorded, in program order, in the trace of the store.
    [EvDelete] records [delete ch]. *)
Inductive event : Set :=
| EvWakeup (c : coro)
| EvSuspend
| EvYield
| EvDelete (slot : nat).

(** [struct coro_bus_channel].  [std::queue<unsigned>] is a list whose head
    is the front of the queue; a [wakeup_queue] is the list of its entries
    from first to last. *)
Record coro_bus_channel : Set := mkChannel {
  size_limit : nat;
  send_queue : list coro;
  recv_queue : list coro;
  data : list N;
  is_closed : bool
}.

(** The store: [bus->channels] (a null pointer is [None]), the static
    [global_error], and the trace of runtime calls. *)
Record store : Set := mkStore {
  channels : list (option coro_bus_channel);
  global_error : coro_bus_error_code;
  trace : list event
}.

Definition with_data (ch : coro_bus_channel) (q : list N) : coro_bus_channel :=
  mkChannel (size_limit ch) (send_queue ch) (recv_queue ch) q (is_closed ch).

Definition with_send_queue (ch : coro_bus_channel) (l : list coro) : coro_bus_channel :=
  mkChannel (size_limit ch) l (recv_queue ch) (data ch) (is_closed ch).

Definition with_recv_queue (ch : coro_bus_channel) (l : list coro) : coro_bus_channel :=
  mkChannel (size_limit ch) (send_queue ch) l (data ch) (is_closed ch).

Definition with_is_closed (ch : coro_bus_channel) (b : bool) : coro_bus_channel :=
  mkChannel (size_limit ch) (send_queue ch) (recv_queue ch) (data ch) b.

(** ** The state monad of the operations *)

Definition M (A : Type) : Type := store -> A * store.

Definition ret {A : Type} (a : A) : M A := fun s => (a, s).

Definition bind {A B : Type} (m : M A) (k : A -> M B) : M B :=
  fun s => let (a, s') := m s in k a s'.

Notation "'let*' x ':=' m 'in' k" := (bind m (fun x => k))
  (at level 10, x name, m at level 100, k at level 200).
Notation "m ';;' k" := (bind m (fun _ => k))
  (at level 100, k at level 200, right associativity).

Definition get_channels : M (list (option coro_bus_channel)) :=
  fun s => (channels s, s).

Definition put_channels (chs : list (option coro_bus_channel)) : M unit :=
  fun s => (tt, mkStore chs (global_error s) (trace s)).

Definition emit (e : event) : M unit :=
  fun s => (tt, mkStore (channels s) (global_error s) (trace s ++ [e])).

(** [coro_bus_errno] and [coro_bus_errno_set]. *)
Definition coro_bus_errno : M coro_bus_error_code :=
  fun s => (global_error s, s).

Definition coro_bus_errno_set (err : coro_bus_error_code) : M unit :=
  fun s => (tt, mkStore (channels s) err (trace s)).

(** The id check that opens every operation:
    [channel < 0 || (size_t)channel >= bus->channels.size()
     || bus->channels[channel] == nullptr].
    [None] stands for a failed check, [Some ch] for the channel
    [bus->channels[channel]] points to. *)
Definition find_channel (chs : list (option coro_bus_channel)) (channel : Z)
  : option coro_bus_channel :=
  if (channel <? 0) || (Z.of_nat (length chs) <=? channel) then None
  else match chs !! Z.to_nat channel with
       | Some (Some ch) => Some ch
       | _ => None
       end.

(** A write through the pointer [ch = bus->channels[channel]]. *)
Definition store_channel (channel : Z) (ch : coro_bus_channel) : M unit :=
  let* chs := get_channels in
  put_channels (<[Z.to_nat channel := Some ch]> chs).

(** [if (!rlist_empty(q)) coro_wakeup(rlist_first_entry(q)->coro)]. *)
Definition wakeup_first (q : list coro) : M unit :=
  match q with
  | [] => ret tt
  | c :: _ => emit (EvWakeup c)
  end.

(** ** Non-blocking send *)

Definition coro_bus_try_send (channel : Z) (d : N) : M Z :=
  let* chs := get_channels in
  match find_channel chs channel with
  | None => coro_bus_errno_set CORO_BUS_ERR_NO_CHANNEL ;; ret (-1)
  | Some ch =>
      if Nat.eqb (size_limit ch) (length (data ch)) then
        coro_bus_errno_set CORO_BUS_ERR_WOULD_BLOCK ;; ret (-1)
      else
        store_channel channel (with_data ch (data ch ++ [d])) ;;
        wakeup_first (recv_queue ch) ;;
        ret 0
  end.

(** ** Non-blocking receive

    The out-parameter [unsigned *data] is a cell of the caller: its value
    before the call is [out], its value after the call is returned next to
    the result. *)

Definition coro_bus_try_recv (channel : Z) (out : N) : M (Z * N) :=
  let* chs := get_channels in
  match find_channel chs channel with
  | None => coro_bus_errno_set CORO_BUS_ERR_NO_CHANNEL ;; ret (-1, out)
  | Some ch =>
      match data ch with
      | [] => coro_bus_errno_set CORO_BUS_ERR_WOULD_BLOCK ;; ret (-1, out)
      | front :: rest =>
          store_channel channel (with_data ch rest) ;;
          wakeup_first (send_queue ch) ;;
          ret (0, front)
      end
  end.

(** ** Opening a channel *)

Definition coro_bus_new : store := mkStore [] CORO_BUS_ERR_NONE [].

(** The search loop of [coro_bus_channel_open], started at index [i] on the
    slots from [i] on: the first null slot, if any. *)
Fixpoint first_free (slots : list (option coro_bus_channel)) (i : nat) : option nat :=
  match slots with
  | [] => None
  | None :: _ => Some i
  | Some _ :: rest => first_free rest (S i)
  end.

Definition coro_bus_channel_open (limit : nat) : M Z :=
  let channel := mkChannel limit [] [] [] false in
  let* chs := get_channels in
  match first_free chs 0 with
  | Some i =>
      put_channels (<[i := Some channel]> chs) ;;
      ret (Z.of_nat i)
  | None =>
      put_channels (chs ++ [Some channel]) ;;
      let* chs' := get_channels in
      ret (Z.of_nat (length chs' - 1))
  end.

(** ** Control points

    A coroutine runs without interruption until it calls [coro_suspend] or
    [coro_yield].  A piece of code that runs from one such point to the next
    ends with an [outcome]: the function returned, the caller is parked in
    [coro_suspend] with its [wakeup_entry] linked in the channel of a slot,
    the caller is inside [coro_yield], the [while (true)] loop goes round
    once more, or the code dereferenced a pointer to a channel that has been
    deleted in the meantime. *)
Inductive outcome : Set :=
| Returned (r : Z)
| ReturnedVoid
| Suspended (slot : nat)
| Yielded
| Again
| Fault.

Definition is_fault (o : outcome) : bool :=
  match o with Fault => true | _ => false end.

(** ** Closing a channel *)

(** [rlist_foreach_entry_safe(item, q, base, tmp) coro_wakeup(item->coro)]. *)
Fixpoint wakeup_all (q : list coro) : M unit :=
  match q with
  | [] => ret tt
  | c :: rest => emit (EvWakeup c) ;; wakeup_all rest
  end.

(** [coro_bus_channel_close] up to and including its call of [coro_yield]. *)
Definition coro_bus_channel_close_begin (channel : Z) : M outcome :=
  let* chs := get_channels in
  match find_channel chs channel with
  | None => ret ReturnedVoid
  | Some ch =>
      store_channel channel (with_is_closed ch true) ;;
      wakeup_all (send_queue ch) ;;
      wakeup_all (recv_queue ch) ;;
      emit EvYield ;;
      ret Yielded
  end.

(** [coro_bus_channel_close] after [coro_yield] has returned:
    [delete ch; bus->channels[channel] = nullptr].  The pointer [ch] was read
    before the yield; if the slot no longer holds a channel, [ch] dangles. *)
Definition coro_bus_channel_close_finish (channel : Z) : M outcome :=
  let* chs := get_channels in
  match find_channel chs channel with
  | None => ret Fault
  | Some _ =>
      emit (EvDelete (Z.to_nat channel)) ;;
      put_channels (<[Z.to_nat channel := None]> chs) ;;
      ret ReturnedVoid
  end.

(** The whole call when no other coroutine touches the bus during the
    yield. *)
Definition coro_bus_channel_close (channel : Z) : M outcome :=
  let* o := coro_bus_channel_close_begin channel in
  match o with
  | Yielded => coro_bus_channel_close_finish channel
  | _ => ret o
  end.

(** ** Broadcast *)

(** First loop of [coro_bus_try_broadcast]: [None] when a live channel has
    [data.size() >= size_limit] (the early [return -1]), otherwise the final
    value of [has_alive_channels]. *)
Fixpoint broadcast_scan (slots : list (option coro_bus_channel)) (has_alive_channels : bool)
  : option bool :=
  match slots with
  | [] => Some has_alive_channels
  | None :: rest => broadcast_scan rest has_alive_channels
  | Some ch :: rest =>
      if is_closed ch then broadcast_scan rest has_alive_channels
      else if (size_limit ch <=? length (data ch))%nat then None
      else broadcast_scan rest true
  end.

(** Second loop: [slots] are the slots from index [i] on. *)
Fixpoint broadcast_deliver (slots : list (option coro_bus_channel)) (i : nat) (d : N)
  : M unit :=
  match slots with
  | [] => ret tt
  | slot :: rest =>
      match slot with
      | Some ch =>
          if negb (is_closed ch) then
            store_channel (Z.of_nat i) (with_data ch (data ch ++ [d])) ;;
            wakeup_first (recv_queue ch)
          else ret tt
      | None => ret tt
      end ;;
      broadcast_deliver rest (S i) d
  end.

Definition coro_bus_try_broadcast (d : N) : M Z :=
  let* chs := get_channels in
  match broadcast_scan chs false with
  | None => coro_bus_errno_set CORO_BUS_ERR_WOULD_BLOCK ;; ret (-1)
  | Some false => coro_bus_errno_set CORO_BUS_ERR_NO_CHANNEL ;; ret (-1)
  | Some true => broadcast_deliver chs 0 d ;; ret 0
  end.

(** ** Vectorized transfers

    [const unsigned *data, unsigned count] is the list [buf] of the [count]
    values the call may read. *)

(** [while (send_c < count && ch->data.size() != ch->size_limit)]: [buf]
    holds [data[send_c .. count)]. *)
Fixpoint send_v_loop (limit : nat) (buf : list N) (q : list N) (send_c : nat)
  : list N * nat :=
  match buf with
  | [] => (q, send_c)
  | x :: rest =>
      if Nat.eqb (length q) limit then (q, send_c)
      else send_v_loop limit rest (q ++ [x]) (S send_c)
  end.

Definition coro_bus_try_send_v (channel : Z) (buf : list N) : M Z :=
  let* chs := get_channels in
  match find_channel chs channel with
  | None => coro_bus_errno_set CORO_BUS_ERR_NO_CHANNEL ;; ret (-1)
  | Some ch =>
      if Nat.eqb (size_limit ch) (length (data ch)) then
        coro_bus_errno_set CORO_BUS_ERR_WOULD_BLOCK ;; ret (-1)
      else
        let (q, send_c) := send_v_loop (size_limit ch) buf (data ch) 0 in
        store_channel channel (with_data ch q) ;;
        wakeup_first (recv_queue ch) ;;
        ret (Z.of_nat send_c)
  end.

(** [while (recv_c < capacity && ch->data.size() != 0)]: [room] is
    [capacity - recv_c]; [out] is the caller's array, written at index
    [recv_c].  The caller owes an array of at least [capacity] cells; a write
    past the end of a shorter one, undefined in the source, is dropped. *)
Fixpoint recv_v_loop (room : nat) (q : list N) (out : list N) (recv_c : nat)
  : list N * list N * nat :=
  match room with
  | O => (q, out, recv_c)
  | S room' =>
      match q with
      | [] => (q, out, recv_c)
      | front :: rest => recv_v_loop room' rest (<[recv_c := front]> out) (S recv_c)
      end
  end.

Definition coro_bus_try_recv_v (channel : Z) (out : list N) (capacity : nat)
  : M (Z * list N) :=
  let* chs := get_channels in
  match find_channel chs channel with
  | None => coro_bus_errno_set CORO_BUS_ERR_NO_CHANNEL ;; ret (-1, out)
  | Some ch =>
      if Nat.eqb (length (data ch)) 0 then
        coro_bus_errno_set CORO_BUS_ERR_WOULD_BLOCK ;; ret (-1, out)
      else
        let '(q, out', recv_c) := recv_v_loop capacity (data ch) out 0 in
        store_channel channel (with_data ch q) ;;
        wakeup_first (send_queue ch) ;;
        ret (Z.of_nat recv_c, out')
  end.

(** ** Blocking operations

    A blocking operation checks the id once and then loops.  [ch], read once
    before the loop, points to the channel of slot [channel] for as long as
    that channel lives; a read through [ch] after the channel was deleted is
    a [Fault]. *)

Definition deref (channel : Z) : M (option coro_bus_channel) :=
  let* chs := get_channels in
  ret (find_channel chs channel).

(** The code before the loop, the same in [coro_bus_send], [coro_bus_recv],
    [coro_bus_send_v] and [coro_bus_recv_v]. *)
Definition blocking_enter (channel : Z) : M outcome :=
  let* p := deref channel in
  match p with
  | None => coro_bus_errno_set CORO_BUS_ERR_NO_CHANNEL ;; ret (Returned (-1))
  | Some _ => ret Again
  end.

(** Modelled from the spec: [rlist.h] is not part of the sources; the spec
    asks for self-removal that is safe whether or not the entry is linked.
    [rlist_del(&we.base)] on the list that holds the entry of [self]. *)
Fixpoint rlist_del (self : coro) (q : list coro) : list coro :=
  match q with
  | [] => []
  | c :: rest => if Nat.eqb c self then rest else c :: rlist_del self rest
  end.

(** [we.coro = coro_this(); rlist_create(&we.base);
     rlist_add_tail(&ch->send_queue.coros, &we.base); coro_suspend();] *)
Definition park_sender (self : coro) (channel : Z) : M outcome :=
  let* p := deref channel in
  match p with
  | None => ret Fault
  | Some ch =>
      store_channel channel (with_send_queue ch (send_queue ch ++ [self])) ;;
      emit EvSuspend ;;
      ret (Suspended (Z.to_nat channel))
  end.

Definition park_receiver (self : coro) (channel : Z) : M outcome :=
  let* p := deref channel in
  match p with
  | None => ret Fault
  | Some ch =>
      store_channel channel (with_recv_queue ch (recv_queue ch ++ [self])) ;;
      emit EvSuspend ;;
      ret (Suspended (Z.to_nat channel))
  end.

(** After [coro_suspend] has returned: [rlist_del(&we.base); continue;] *)
Definition resume_sender (self : coro) (slot : nat) : M outcome :=
  let* p := deref (Z.of_nat slot) in
  match p with
  | None => ret Fault
  | Some ch =>
      store_channel (Z.of_nat slot) (with_send_queue ch (rlist_del self (send_queue ch))) ;;
      ret Again
  end.

Definition resume_receiver (self : coro) (slot : nat) : M outcome :=
  let* p := deref (Z.of_nat slot) in
  match p with
  | None => ret Fault
  | Some ch =>
      store_channel (Z.of_nat slot) (with_recv_queue ch (rlist_del self (recv_queue ch))) ;;
      ret Again
  end.

(** Modelled from the spec: [rlist_empty] of [rlist.h]. *)
Definition rlist_empty (q : list coro) : bool :=
  match q with [] => true | _ => false end.

(** [if (!rlist_empty(&ch->send_queue.coros) && ch->data.size() < ch->size_limit)
       coro_wakeup(first sender)] *)
Definition wakeup_sender_if_room (ch : coro_bus_channel) : M unit :=
  if negb (rlist_empty (send_queue ch)) && (length (data ch) <? size_limit ch)%nat
  then wakeup_first (send_queue ch)
  else ret tt.

(** [if (!rlist_empty(&ch->recv_queue.coros) && ch->data.size() > 0)
       coro_wakeup(first receiver)] *)
Definition wakeup_receiver_if_data (ch : coro_bus_channel) : M unit :=
  if negb (rlist_empty (recv_queue ch)) && (0 <? length (data ch))%nat
  then wakeup_first (recv_queue ch)
  else ret tt.

(** One round of the loop of [coro_bus_send]. *)
Definition coro_bus_send_body (self : coro) (channel : Z) (d : N) : M outcome :=
  let* p := deref channel in
  match p with
  | None => ret Fault
  | Some ch =>
      if is_closed ch then
        coro_bus_errno_set CORO_BUS_ERR_NO_CHANNEL ;; ret (Returned (-1))
      else
        let* result := coro_bus_try_send channel d in
        let* err := coro_bus_errno in
        if (result =? -1) && error_code_eqb err CORO_BUS_ERR_NO_CHANNEL then
          ret (Returned (-1))
        else if (result =? -1) && error_code_eqb err CORO_BUS_ERR_WOULD_BLOCK then
          park_sender self channel
        else if result =? 0 then
          let* p' := deref channel in
          match p' with
          | None => ret Fault
          | Some ch' => wakeup_sender_if_room ch' ;; ret (Returned 0)
          end
        else ret Again
  end.

(** One round of the loop of [coro_bus_recv]; [out] is the cell behind
    [unsigned *data]. *)
Definition coro_bus_recv_body (self : coro) (channel : Z) (out : N) : M (outcome * N) :=
  let* p := deref channel in
  match p with
  | None => ret (Fault, out)
  | Some ch =>
      if is_closed ch then
        coro_bus_errno_set CORO_BUS_ERR_NO_CHANNEL ;; ret (Returned (-1), out)
      else
        let* res := coro_bus_try_recv channel out in
        let (result, out') := res in
        let* err := coro_bus_errno in
        if (result =? -1) && error_code_eqb err CORO_BUS_ERR_NO_CHANNEL then
          ret (Returned (-1), out')
        else if (result =? -1) && error_code_eqb err CORO_BUS_ERR_WOULD_BLOCK then
          let* o := park_receiver self channel in ret (o, out')
        else if result =? 0 then
          let* p' := deref channel in
          match p' with
          | None => ret (Fault, out')
          | Some ch' => wakeup_receiver_if_data ch' ;; ret (Returned 0, out')
          end
        else ret (Again, out')
  end.

(** One round of the loop of [coro_bus_send_v]. *)
Definition coro_bus_send_v_body (self : coro) (channel : Z) (buf : list N) : M outcome :=
  let* p := deref channel in
  match p with
  | None => ret Fault
  | Some ch =>
      if is_closed ch then
        coro_bus_errno_set CORO_BUS_ERR_NO_CHANNEL ;; ret (Returned (-1))
      else
        let* result := coro_bus_try_send_v channel buf in
        let* err := coro_bus_errno in
        if (result =? -1) && error_code_eqb err CORO_BUS_ERR_NO_CHANNEL then
          ret (Returned (-1))
        else if (result =? -1) && error_code_eqb err CORO_BUS_ERR_WOULD_BLOCK then
          park_sender self channel
        else if 0 <=? result then
          let* p' := deref channel in
          match p' with
          | None => ret Fault
          | Some ch' => wakeup_sender_if_room ch' ;; ret (Returned result)
          end
        else ret Again
  end.

(** One round of the loop of [coro_bus_recv_v]; [out] is the caller's
    array. *)
Definition coro_bus_recv_v_body (self : coro) (channel : Z) (capacity : nat)
    (out : list N) : M (outcome * list N) :=
  let* p := deref channel in
  match p with
  | None => ret (Fault, out)
  | Some ch =>
      if is_closed ch then
        coro_bus_errno_set CORO_BUS_ERR_NO_CHANNEL ;; ret (Returned (-1), out)
      else
        let* res := coro_bus_try_recv_v channel out capacity in
        let (result, out') := res in
        let* err := coro_bus_errno in
        if (result =? -1) && error_code_eqb err CORO_BUS_ERR_NO_CHANNEL then
          ret (Returned (-1), out')
        else if (result =? -1) && error_code_eqb err CORO_BUS_ERR_WOULD_BLOCK then
          let* o := park_receiver self channel in ret (o, out')
        else if 0 <=? result then
          let* p' := deref channel in
          match p' with
          | None => ret (Fault, out')
          | Some ch' => wakeup_receiver_if_data ch' ;; ret (Returned result, out')
          end
        else ret (Again, out')
  end.

(** The search of [coro_bus_broadcast] for the channel to wait on: the first
    slot, from index [i] on, with
    [ch != nullptr && !ch->is_closed && ch->size_limit == ch->data.size()]. *)
Fixpoint find_blocking (slots : list (option coro_bus_channel)) (i : nat) : option nat :=
  match slots with
  | [] => None
  | Some ch :: rest =>
      if negb (is_closed ch) && Nat.eqb (size_limit ch) (length (data ch)) then Some i
      else find_blocking rest (S i)
  | None :: rest => find_blocking rest (S i)
  end.

(** The loop of [coro_bus_broadcast] after a successful [try_broadcast]. *)
Fixpoint broadcast_wakeup_senders (slots : list (option coro_bus_channel)) : M unit :=
  match slots with
  | [] => ret tt
  | slot :: rest =>
      match slot with
      | Some ch => wakeup_sender_if_room ch
      | None => ret tt
      end ;;
      broadcast_wakeup_senders rest
  end.

(** One round of the loop of [coro_bus_broadcast]. *)
Definition coro_bus_broadcast_body (self : coro) (d : N) : M outcome :=
  let* result := coro_bus_try_broadcast d in
  let* err := coro_bus_errno in
  if (result =? -1) && error_code_eqb err CORO_BUS_ERR_NO_CHANNEL then
    ret (Returned (-1))
  else if (result =? -1) && error_code_eqb err CORO_BUS_ERR_WOULD_BLOCK then
    let* chs := get_channels in
    match find_blocking chs 0 with
    | None => ret (Returned (-1))
    | Some i => park_sender self (Z.of_nat i)
    end
  else if result =? 0 then
    let* chs := get_channels in
    broadcast_wakeup_senders chs ;;
    ret (Returned 0)
  else ret Again.

(** A blocking operation as its three pieces: the code before the loop, one
    round of the loop (over the caller's out-parameter, of type [B]), and the
    code that follows the return of [coro_suspend]. *)
Record blocking_op (B : Type) : Type := mkBlocking {
  op_enter : M outcome;
  op_body : B -> M (outcome * B);
  op_resume : nat -> M outcome
}.
Arguments mkBlocking {B} _ _ _.
Arguments op_enter {B} _.
Arguments op_body {B} _ _.
Arguments op_resume {B} _ _.

Definition no_out (m : M outcome) : unit -> M (outcome * unit) :=
  fun _ => let* o := m in ret (o, tt).

Definition coro_bus_send (self : coro) (channel : Z) (d : N) : blocking_op unit :=
  mkBlocking (blocking_enter channel)
             (no_out (coro_bus_send_body self channel d))
             (resume_sender self).

Definition coro_bus_recv (self : coro) (channel : Z) : blocking_op N :=
  mkBlocking (blocking_enter channel)
             (coro_bus_recv_body self channel)
             (resume_receiver self).

Definition coro_bus_send_v (self : coro) (channel : Z) (buf : list N) : blocking_op unit :=
  mkBlocking (blocking_enter channel)
             (no_out (coro_bus_send_v_body self channel buf))
             (resume_sender self).

Definition coro_bus_recv_v (self : coro) (channel : Z) (capacity : nat)
  : blocking_op (list N) :=
  mkBlocking (blocking_enter channel)
             (coro_bus_recv_v_body self channel capacity)
             (resume_receiver self).

Definition coro_bus_broadcast (self : coro) (d : N) : blocking_op unit :=
  mkBlocking (ret Again)
             (no_out (coro_bus_broadcast_body self d))
             (resume_sender self).

(** ** Executions

    [interleave s s'] is what the rest of the program may do to the store
    while the caller is parked. *)
Section Executions.
Variable interleave : store -> store -> Prop.
Context {B : Type} (op : blocking_op B).

(** [loops s b r s' b']: started at the head of the loop in store [s] with
    out-parameter [b], the call returns [r] in store [s'] with
    out-parameter [b']. *)
Inductive loops : store -> B -> Z -> store -> B -> Prop :=
| loops_return s b r s' b' :
    op_body op b s = ((Returned r, b'), s') ->
    loops s b r s' b'
| loops_again s b s1 b1 r s' b' :
    op_body op b s = ((Again, b1), s1) ->
    loops s1 b1 r s' b' ->
    loops s b r s' b'
| loops_suspend s b slot s1 b1 s2 s3 r s' b' :
    op_body op b s = ((Suspended slot, b1), s1) ->
    interleave s1 s2 ->
    op_resume op slot s2 = (Again, s3) ->
    loops s3 b1 r s' b' ->
    loops s b r s' b'.

Inductive returns : store -> B -> Z -> store -> B -> Prop :=
| returns_early s b r s' :
    op_enter op s = (Returned r, s') ->
    returns s b r s' b
| returns_loop s b s1 r s' b' :
    op_enter op s = (Again, s1) ->
    loops s1 b r s' b' ->
    returns s b r s' b'.
End Executions.

(** ** The transition system of the bus

    An [action] is one uninterrupted piece of one operation, run by some
    coroutine. *)
Inductive action : Set :=
| ActErrnoSet (err : coro_bus_error_code)
| ActChannelOpen (limit : nat)
| ActCloseBegin (channel : Z)
| ActCloseFinish (channel : Z)
| ActTrySend (channel : Z) (d : N)
| ActTryRecv (channel : Z) (out : N)
| ActTryBroadcast (d : N)
| ActTrySendV (channel : Z) (buf : list N)
| ActTryRecvV (channel : Z) (out : list N) (capacity : nat)
| ActEnter (channel : Z)
| ActSendBody (self : coro) (channel : Z) (d : N)
| ActRecvBody (self : coro) (channel : Z) (out : N)
| ActSendVBody (self : coro) (channel : Z) (buf : list N)
| ActRecvVBody (self : coro) (channel : Z) (capacity : nat) (out : list N)
| ActBroadcastBody (self : coro) (d : N)
| ActResumeSender (self : coro) (slot : nat)
| ActResumeReceiver (self : coro) (slot : nat).

Definition returning {A : Type} (m : M A) (f : A -> outcome) : M outcome :=
  let* a := m in ret (f a).

Definition perform (a : action) : M outcome :=
  match a with
  | ActErrnoSet err => coro_bus_errno_set err ;; ret ReturnedVoid
  | ActChannelOpen limit => returning (coro_bus_channel_open limit) Returned
  | ActCloseBegin channel => coro_bus_channel_close_begin channel
  | ActCloseFinish channel => coro_bus_channel_close_finish channel
  | ActTrySend channel d => returning (coro_bus_try_send channel d) Returned
  | ActTryRecv channel out =>
      returning (coro_bus_try_recv channel out) (fun r => Returned (fst r))
  | ActTryBroadcast d => returning (coro_bus_try_broadcast d) Returned
  | ActTrySendV channel buf => returning (coro_bus_try_send_v channel buf) Returned
  | ActTryRecvV channel out capacity =>
      returning (coro_bus_try_recv_v channel out capacity) (fun r => Returned (fst r))
  | ActEnter channel => blocking_enter channel
  | ActSendBody self channel d => coro_bus_send_body self channel d
  | ActRecvBody self channel out => returning (coro_bus_recv_body self channel out) fst
  | ActSendVBody self channel buf => coro_bus_send_v_body self channel buf
  | ActRecvVBody self channel capacity out =>
      returning (coro_bus_recv_v_body self channel capacity out) fst
  | ActBroadcastBody self d => coro_bus_broadcast_body self d
  | ActResumeSender self slot => resume_sender self slot
  | ActResumeReceiver self slot => resume_receiver self slot
  end.

(** One step of the system: some action runs and does not fault.  Which
    coroutine runs next is decided by the scheduler of [libcoro], which is
    not modelled: any action may follow any other, so the stores of the real
    runs are among the reachable ones.  [coro_bus_delete] closes every slot
    in turn; its pieces are those of [coro_bus_channel_close]. *)
Definition step (s s' : store) : Prop :=
  exists a o, perform a s = (o, s') /\ is_fault o = false.

(** The stores the program can be in, from [coro_bus_new] on. *)
Definition reachable (s : store) : Prop := rtc step coro_bus_new s.

(** ** The bounded-queue invariant *)

Definition slot_bounded (slot : option coro_bus_channel) : Prop :=
  match slot with
  | Some ch => (length (data ch) <= size_limit ch)%nat
  | None => True
  end.

Definition bounded (s : store) : Prop := Forall slot_bounded (channels s).

(** ** Vocabulary of the statements *)

Definition queue_of (s : store) (i : nat) : option (list N) :=
  match channels s !! i with
  | Some (Some ch) => Some (data ch)
  | _ => None
  end.


Definition set_error (err : coro_bus_error_code) (s : store) : store :=
  mkStore (channels s) err (trace s).

(** A live slot: not null and not closed. *)
Definition live (slot : option coro_bus_channel) : bool :=
  match slot with
  | Some ch => negb (is_closed ch)
  | None => false
  end.

(** The queue has reached the capacity: the test [data.size() >= size_limit]
    of [coro_bus_try_broadcast]. *)
Definition at_capacity (ch : coro_bus_channel) : bool :=
  (size_limit ch <=? length (data ch))%nat.

Definition live_and_full (slot : option coro_bus_channel) : bool :=
  match slot with
  | Some ch => negb (is_closed ch) && at_capacity ch
  | None => false
  end.

(** What a successful broadcast of [d] does to one slot. *)
Definition deliver_slot (d : N) (slot : option coro_bus_channel)
  : option coro_bus_channel :=
  match slot with
  | Some ch => if is_closed ch then slot else Some (with_data ch (data ch ++ [d]))
  | None => None
  end.

(** The receivers a successful broadcast wakes, in slot order. *)
Definition deliver_wakeups (slots : list (option coro_bus_channel)) : list event :=
  flat_map (fun slot =>
              match slot with
              | Some ch =>
                  if is_closed ch then []
                  else match recv_queue ch with
                       | [] => []
                       | c :: _ => [EvWakeup c]
                       end
              | None => []
              end) slots.

Definition occupied (chs : list (option coro_bus_channel)) (j : nat) : Prop :=
  exists ch, chs !! j = Some (Some ch).

(** The five blocking operations of the bus. *)
Inductive bus_blocking : forall {B : Type}, blocking_op B -> Prop :=
| blocking_send self channel d : bus_blocking (coro_bus_send self channel d)
| blocking_recv self channel : bus_blocking (coro_bus_recv self channel)
| blocking_send_v self channel buf : bus_blocking (coro_bus_send_v self channel buf)
| blocking_recv_v self channel capacity :
    bus_blocking (coro_bus_recv_v self channel capacity)
| blocking_broadcast self d : bus_blocking (coro_bus_broadcast self d).



(** ** Deleting the bus *)

(** [coro_bus_delete] when no other coroutine touches the bus during the
    yields of its closes:
    [for (size_t i = 0; i < bus->channels.size(); ++i)
       coro_bus_channel_close(bus, i);].
    The size is read again in every round.  [fuel] bounds the number of
    rounds; the loop is started with the size of the vector as fuel.  The
    final [delete bus] releases the vector itself: the store returned is the
    one it releases. *)
Fixpoint coro_bus_delete_loop (fuel i : nat) : M unit :=
  match fuel with
  | O => ret tt
  | S fuel' =>
      let* chs := get_channels in
      if (i <? length chs)%nat then
        coro_bus_channel_close (Z.of_nat i) ;;
        coro_bus_delete_loop fuel' (S i)
      else ret tt
  end.

Definition coro_bus_delete : M unit :=
  let* chs := get_channels in
  coro_bus_delete_loop (length chs) 0.

(** What the close of the channel of slot [i] adds to the trace. *)
Definition close_events (i : nat) (slot : option coro_bus_channel) : list event :=
  match slot with
  | Some ch =>
      map EvWakeup (send_queue ch) ++ map EvWakeup (recv_queue ch)
        ++ [EvYield; EvDelete i]
  | None => []
  end.

Fixpoint delete_events (slots : list (option coro_bus_channel)) (i : nat) : list event :=
  match slots with
  | [] => []
  | slot :: rest => close_events i slot ++ delete_events rest (S i)
  end.

(** ** Callers used in the statements *)

(** A caller that sends the values of [vs] one after the other with
    [coro_bus_try_send] and keeps the results. *)
Fixpoint try_send_each (channel : Z) (vs : list N) : M (list Z) :=
  match vs with
  | [] => ret []
  | v :: rest =>
      let* r := coro_bus_try_send channel v in
      let* rs := try_send_each channel rest in
      ret (r :: rs)
  end.

(** A caller that calls [coro_bus_try_recv] [n] times on the same cell and
    keeps, for every call, the result and the value of the cell after it. *)
Fixpoint try_recv_each (channel : Z) (n : nat) (out : N) : M (list (Z * N)) :=
  match n with
  | O => ret []
  | S n' =>
      let* r := coro_bus_try_recv channel out in
      let* rs := try_recv_each channel n' (snd r) in
      ret (r :: rs)
  end.

(** The wakeup of the first entry of a waiter list, if there is one. *)
Definition wake_head (q : list coro) : list event :=
  match q with
  | [] => []
  | c :: _ => [EvWakeup c]
  end.

(** Coroutine [c] has an entry in a waiter list of some channel. *)
Definition linked (chs : list (option coro_bus_channel)) (c : coro) : Prop :=
  exists (i : nat) ch,
    chs !! i = Some (Some ch) /\ (In c (send_queue ch) \/ In c (recv_queue ch)).

(** Two slots that differ at most in the message queue. *)
Definition same_frame (slot slot' : option coro_bus_channel) : Prop :=
  match slot, slot' with
  | None, None => True
  | Some ch, Some ch' =>
      size_limit ch' = size_limit ch /\ send_queue ch' = send_queue ch /\
      recv_queue ch' = recv_queue ch /\ is_closed ch' = is_closed ch
  | _, _ => False
  end.

(** The non-blocking operations on messages. *)
Definition is_try (a : action) : bool :=
  match a with
  | ActTrySend _ _ | ActTryRecv _ _ | ActTryBroadcast _
  | ActTrySendV _ _ | ActTryRecvV _ _ _ => true
  | _ => false
  end.

(** Over one action a channel keeps its capacity, and once marked closed it
    stays marked. *)
Definition channel_evolves (ch ch' : coro_bus_channel) : Prop :=
  size_limit ch' = size_limit ch /\ (is_closed ch = true -> is_closed ch' = true).

(** The vector does not shrink and every channel is still in its slot. *)
Definition slots_kept (l l' : list (option coro_bus_channel)) : Prop :=
  (length l <= length l')%nat /\
  forall (i : nat) ch,
    l !! i = Some (Some ch) ->
    exists ch', l' !! i = Some (Some ch') /\ channel_evolves ch ch'.

(** The senders that [coro_bus_broadcast] wakes after a successful
    broadcast, in slot order: the first sender of every channel that has
    room. *)
Definition sender_wakeups (slots : list (option coro_bus_channel)) : list event :=
  flat_map (fun slot =>
              match slot with
              | Some ch =>
                  if (length (data ch) <? size_limit ch)%nat
                  then wake_head (send_queue ch) else []
              | None => []
              end) slots.

(** Every wakeup among the events [evs] is for a coroutine with an entry in
    a waiter list of [chs]. *)
Definition wakes_linked (chs : list (option coro_bus_channel)) (evs : list event)
  : Prop :=
  forall c, In (EvWakeup c) evs -> linked chs c.

(** The trace only grows from [s] to [s'], and only by wakeups of
    coroutines that were waiting in [s] and by other events. *)
Definition polite (s s' : store) : Prop :=
  exists evs, trace s' = trace s ++ evs /\ wakes_linked (channels s) evs.

(** ** Failures and their reasons

    The failure a piece of an operation meets in a store, as a condition on
    the channels, and the error code that belongs to it; [None] when the
    piece meets no failure there. *)








(** A computation that only talks to the runtime: it changes neither the
    channels nor the error slot. *)
Definition silent {A : Type} (m : M A) : Prop :=
  forall s, channels (snd (m s)) = channels s /\
            global_error (snd (m s)) = global_error s.

(** * Verification *)

(** Scenario 5: broadcast with one full channel. *)
Example scenario_broadcast_one_full :
  let s0 := snd (coro_bus_channel_open 1 coro_bus_new) in
  let s1 := snd (coro_bus_channel_open 1 s0) in
  let s2 := snd (coro_bus_try_send 0 9%N s1) in
  let (r, s3) := coro_bus_try_broadcast 7%N s2 in
  r = -1 /\ global_error s3 = CORO_BUS_ERR_WOULD_BLOCK /\
  queue_of s3 0 = Some [9%N] /\ queue_of s3 1 = Some [].
Proof. vm_compute. auto. Qed.

(** Scenario 6: a batch that fits only in part. *)
Example scenario_batch_partial :
  let s0 := snd (coro_bus_channel_open 3 coro_bus_new) in
  let (r1, s1) := coro_bus_try_send_v 0 [1; 2; 3; 4; 5]%N s0 in
  let (r2, s2) := coro_bus_try_send_v 0 [4%N] s1 in
  r1 = 3 /\ queue_of s1 0 = Some [1; 2; 3]%N /\
  r2 = -1 /\ global_error s2 = CORO_BUS_ERR_WOULD_BLOCK.
Proof. vm_compute. auto. Qed.

(** Scenario 7: the id of a closed channel is used again. *)
Example scenario_id_reuse :
  let (a, s0) := coro_bus_channel_open 1 coro_bus_new in
  let (b, s1) := coro_bus_channel_open 1 s0 in
  let s2 := snd (coro_bus_channel_close a s1) in
  let (c, s3) := coro_bus_channel_open 1 s2 in
  a = 0 /\ b = 1 /\ c = 0.
Proof. vm_compute. auto. Qed.

(** ** Basic facts about the store *)

Lemma find_channel_Some chs channel ch :
  find_channel chs channel = Some ch <->
  0 <= channel /\ chs !! Z.to_nat channel = Some (Some ch).
Proof.
  unfold find_channel. split.
  - destruct (channel <? 0) eqn:Hneg; simpl; [discriminate|].
    destruct (Z.of_nat (length chs) <=? channel); [discriminate|].
    apply Z.ltb_ge in Hneg.
    destruct (chs !! Z.to_nat channel) as [[c|]|]; intros [= ->]; auto.
  - intros [Hpos Hlook].
    assert (Hlt : (Z.to_nat channel < length chs)%nat)
      by (eapply lookup_lt_Some; eauto).
    destruct (channel <? 0) eqn:Hneg; [apply Z.ltb_lt in Hneg; lia|].
    destruct (Z.of_nat (length chs) <=? channel) eqn:Hge;
      [apply Z.leb_le in Hge; lia|].
    simpl. now rewrite Hlook.
Qed.

Lemma find_channel_slot chs (i : nat) ch :
  find_channel chs (Z.of_nat i) = Some ch <-> chs !! i = Some (Some ch).
Proof.
  rewrite find_channel_Some, Nat2Z.id. split; [tauto|]. split; [lia|auto].
Qed.

Lemma step_perform a s :
  is_fault (fst (perform a s)) = false -> step s (snd (perform a s)).
Proof.
  intros H. exists a, (fst (perform a s)). split; [|exact H].
  now destruct (perform a s).
Qed.

Lemma reachable_step s s' : reachable s -> step s s' -> reachable s'.
Proof. intros Hr Hs. eapply rtc_r; eauto. Qed.

Lemma reachable_perform a s s' :
  reachable s ->
  snd (perform a s) = s' -> is_fault (fst (perform a s)) = false ->
  reachable s'.
Proof. intros Hr <- Hf. eapply reachable_step; eauto using step_perform. Qed.

(** [reach_by a]: the store of the goal is the result of action [a] on a
    reachable store. *)
Ltac reach_by a :=
  match goal with
  | |- reachable (snd (_ ?s)) =>
      apply (reachable_perform a s); [|reflexivity..]
  end.

(** ** C1: sending to a channel marked closed *)

(** What [coro_bus_try_send] does on a valid id never depends on
    [is_closed]: the function does not read the flag. *)
Lemma try_send_valid_not_full s channel ch d :
  find_channel (channels s) channel = Some ch ->
  size_limit ch <> length (data ch) ->
  coro_bus_try_send channel d s =
    (0, snd (wakeup_first (recv_queue ch)
          (mkStore (<[Z.to_nat channel := Some (with_data ch (data ch ++ [d]))]> (channels s))
                   (global_error s) (trace s)))).
Proof.
  intros Hf Hne. unfold coro_bus_try_send, bind, get_channels. rewrite Hf.
  apply Nat.eqb_neq in Hne. rewrite Hne.
  unfold store_channel, bind, get_channels, put_channels, ret. simpl.
  now destruct (wakeup_first _ _) as [[] ?].
Qed.

Lemma try_send_valid_full s channel ch d :
  find_channel (channels s) channel = Some ch ->
  size_limit ch = length (data ch) ->
  coro_bus_try_send channel d s = (-1, set_error CORO_BUS_ERR_WOULD_BLOCK s).
Proof.
  intros Hf He. unfold coro_bus_try_send, bind, get_channels. rewrite Hf.
  apply Nat.eqb_eq in He. now rewrite He.
Qed.

Lemma try_send_invalid s channel d :
  find_channel (channels s) channel = None ->
  coro_bus_try_send channel d s = (-1, set_error CORO_BUS_ERR_NO_CHANNEL s).
Proof.
  intros Hf. unfold coro_bus_try_send, bind, get_channels. now rewrite Hf.
Qed.

(** C1 (defect of the code).  A channel of capacity 1 is opened and a close
    of it is under way (the closer is inside [coro_yield]): the store is
    reachable, slot 0 holds a channel with [is_closed = true], and
    [coro_bus_try_send] on it returns 0 and puts the message in the queue
    instead of failing with NO_CHANNEL. *)
Theorem try_send_on_closed_channel_enqueues :
  let s := snd (coro_bus_channel_close_begin 0
                  (snd (coro_bus_channel_open 1 coro_bus_new))) in
  reachable s /\
  find_channel (channels s) 0 = Some (mkChannel 1 [] [] [] true) /\
  coro_bus_try_send 0 5%N s =
    (0, mkStore [Some (mkChannel 1 [] [] [5%N] true)] CORO_BUS_ERR_NONE [EvYield]).
Proof.
  intros s. split; [|split; reflexivity]. subst s.
  reach_by (ActCloseBegin 0). reach_by (ActChannelOpen 1).
  apply rtc_refl.
Qed.

(** ** C2: receiving from an empty channel *)

(** On a valid id with an empty queue [coro_bus_try_recv] fails with
    WOULD_BLOCK, whatever [is_closed] says; nothing but the error slot
    changes and the out-parameter keeps its value. *)
Lemma try_recv_valid_empty s channel ch out :
  find_channel (channels s) channel = Some ch ->
  data ch = [] ->
  coro_bus_try_recv channel out s =
    ((-1, out), set_error CORO_BUS_ERR_WOULD_BLOCK s).
Proof.
  intros Hf He. unfold coro_bus_try_recv, bind, get_channels.
  now rewrite Hf, He.
Qed.

Lemma try_recv_valid_nonempty s channel ch out front rest :
  find_channel (channels s) channel = Some ch ->
  data ch = front :: rest ->
  coro_bus_try_recv channel out s =
    ((0, front),
     snd (wakeup_first (send_queue ch)
            (mkStore (<[Z.to_nat channel := Some (with_data ch rest)]> (channels s))
                     (global_error s) (trace s)))).
Proof.
  intros Hf He. unfold coro_bus_try_recv, bind, get_channels.
  rewrite Hf, He.
  unfold store_channel, bind, get_channels, put_channels, ret. simpl.
  now destruct (wakeup_first _ _) as [[] ?].
Qed.

Lemma try_recv_invalid s channel out :
  find_channel (channels s) channel = None ->
  coro_bus_try_recv channel out s =
    ((-1, out), set_error CORO_BUS_ERR_NO_CHANNEL s).
Proof.
  intros Hf. unfold coro_bus_try_recv, bind, get_channels. now rewrite Hf.
Qed.

(** C2 (defect of the code).  On the reachable store in which the empty
    channel 0 is marked closed, [coro_bus_try_recv] returns -1 and leaves the
    out-parameter alone, but the error it sets is WOULD_BLOCK, not
    NO_CHANNEL. *)
Theorem try_recv_on_closed_empty_channel_would_block :
  let s := snd (coro_bus_channel_close_begin 0
                  (snd (coro_bus_channel_open 1 coro_bus_new))) in
  reachable s /\
  find_channel (channels s) 0 = Some (mkChannel 1 [] [] [] true) /\
  coro_bus_try_recv 0 77%N s =
    ((-1, 77%N), set_error CORO_BUS_ERR_WOULD_BLOCK s).
Proof.
  intros s. split; [|split; reflexivity]. subst s.
  reach_by (ActCloseBegin 0). reach_by (ActChannelOpen 1).
  apply rtc_refl.
Qed.

(** ** C3: broadcast is all or nothing *)

Lemma broadcast_scan_spec slots has_alive :
  broadcast_scan slots has_alive =
    if existsb live_and_full slots then None
    else Some (has_alive || existsb live slots).
Proof.
  revert has_alive. induction slots as [|[ch|] rest IH]; intros has_alive; simpl.
  - now rewrite orb_false_r.
  - unfold at_capacity. destruct (is_closed ch); simpl; [apply IH|].
    destruct (size_limit ch <=? length (data ch))%nat; simpl; [reflexivity|].
    rewrite IH. destruct (existsb live_and_full rest); [reflexivity|].
    now rewrite orb_true_r.
  - apply IH.
Qed.

Lemma insert_after_prefix {A : Type} (pre : list A) (x y : A) (rest : list A) :
  <[length pre := y]> (pre ++ x :: rest) = pre ++ y :: rest.
Proof.
  rewrite insert_app_r_alt by lia. now rewrite Nat.sub_diag.
Qed.

Lemma broadcast_deliver_spec slots d pre s :
  channels s = pre ++ slots ->
  broadcast_deliver slots (length pre) d s =
    (tt, mkStore (pre ++ map (deliver_slot d) slots)
                 (global_error s) (trace s ++ deliver_wakeups slots)).
Proof.
  revert pre s. induction slots as [|slot rest IH]; intros pre s Hs.
  - simpl. unfold ret. rewrite <- Hs, app_nil_r. now destruct s.
  - cbn [broadcast_deliver]. unfold bind at 1.
    assert (Hone :
      (match slot with
       | Some ch =>
           if negb (is_closed ch) then
             store_channel (Z.of_nat (length pre)) (with_data ch (data ch ++ [d])) ;;
             wakeup_first (recv_queue ch)
           else ret tt
       | None => ret tt
       end) s =
      (tt, mkStore (pre ++ deliver_slot d slot :: rest) (global_error s)
             (trace s ++ deliver_wakeups [slot]))).
    { destruct slot as [ch|]; simpl.
      - destruct (is_closed ch); simpl.
        + unfold ret. rewrite app_nil_r, <- Hs. now destruct s.
        + unfold store_channel, bind, get_channels, put_channels.
          rewrite Nat2Z.id, Hs, insert_after_prefix.
          destruct (recv_queue ch); simpl; unfold ret, emit; simpl;
            now rewrite ?app_nil_r.
      - unfold ret. rewrite app_nil_r, <- Hs. now destruct s. }
    rewrite Hone.
    replace (S (length pre)) with (length (pre ++ [deliver_slot d slot]))
      by (rewrite length_app; simpl; lia).
    rewrite IH by (simpl; now rewrite <- app_assoc).
    simpl. f_equal. f_equal.
    + now rewrite <- app_assoc.
    + rewrite app_nil_r, <- app_assoc. reflexivity.
Qed.

Lemma try_broadcast_spec d s :
  coro_bus_try_broadcast d s =
    if existsb live_and_full (channels s) then
      (-1, set_error CORO_BUS_ERR_WOULD_BLOCK s)
    else if existsb live (channels s) then
      (0, mkStore (map (deliver_slot d) (channels s)) (global_error s)
            (trace s ++ deliver_wakeups (channels s)))
    else (-1, set_error CORO_BUS_ERR_NO_CHANNEL s).
Proof.
  unfold coro_bus_try_broadcast, bind, get_channels.
  rewrite broadcast_scan_spec.
  destruct (existsb live_and_full (channels s)); [reflexivity|].
  simpl. destruct (existsb live (channels s)); [|reflexivity].
  pose proof (broadcast_deliver_spec (channels s) d [] s eq_refl) as Hd.
  cbn [length app] in Hd. now rewrite Hd.
Qed.


(** On a bounded queue the test of the source, [data.size() >= size_limit],
    says that the queue is exactly full. *)
Lemma at_capacity_bounded ch :
  slot_bounded (Some ch) ->
  at_capacity ch = true <-> length (data ch) = size_limit ch.
Proof.
  unfold at_capacity. simpl. intros Hle. rewrite Nat.leb_le. lia.
Qed.


(** ** Calls that only talk to the runtime *)

Lemma silent_wakeup_first q : silent (wakeup_first q).
Proof. intros s. now destruct q. Qed.

Lemma silent_wakeup_all q : silent (wakeup_all q).
Proof.
  induction q as [|c rest IH]; intros s; [easy|].
  simpl. unfold bind, emit. simpl.
  destruct (IH (mkStore (channels s) (global_error s) (trace s ++ [EvWakeup c])))
    as [H1 H2].
  now split.
Qed.

Lemma silent_wakeup_sender_if_room ch : silent (wakeup_sender_if_room ch).
Proof.
  intros s. unfold wakeup_sender_if_room.
  destruct (_ && _); [apply silent_wakeup_first|easy].
Qed.

Lemma silent_wakeup_receiver_if_data ch : silent (wakeup_receiver_if_data ch).
Proof.
  intros s. unfold wakeup_receiver_if_data.
  destruct (_ && _); [apply silent_wakeup_first|easy].
Qed.

Lemma silent_broadcast_wakeup_senders slots : silent (broadcast_wakeup_senders slots).
Proof.
  induction slots as [|slot rest IH]; intros s; [easy|].
  simpl. unfold bind.
  destruct slot as [ch|].
  - pose proof (silent_wakeup_sender_if_room ch s) as [H1 H2].
    destruct (wakeup_sender_if_room ch s) as [[] s1]. simpl in *.
    destruct (IH s1) as [H3 H4]. split; congruence.
  - apply IH.
Qed.

(** ** The loops of the vectorized transfers *)

Lemma send_v_loop_spec limit buf q send_c :
  (length q <= limit)%nat ->
  send_v_loop limit buf q send_c =
    (q ++ take (limit - length q) buf,
     (send_c + Nat.min (length buf) (limit - length q))%nat).
Proof.
  revert q send_c. induction buf as [|x rest IH]; intros q send_c Hle; simpl.
  - rewrite take_nil, app_nil_r. f_equal. lia.
  - destruct (Nat.eqb (length q) limit) eqn:He.
    + apply Nat.eqb_eq in He. subst limit. rewrite Nat.sub_diag. simpl.
      rewrite app_nil_r. f_equal. lia.
    + apply Nat.eqb_neq in He.
      rewrite IH by (rewrite length_app; simpl; lia).
      rewrite length_app. simpl.
      replace (limit - length q)%nat with (S (limit - (length q + 1)))%nat by lia.
      simpl. rewrite <- app_assoc. simpl. f_equal. lia.
Qed.

Lemma recv_v_loop_spec room q out recv_c :
  recv_v_loop room q out recv_c =
    (drop room q,
     snd (fst (recv_v_loop room q out recv_c)),
     (recv_c + Nat.min room (length q))%nat).
Proof.
  revert q out recv_c. induction room as [|room IH]; intros q out recv_c; simpl.
  - f_equal. lia.
  - destruct q as [|front rest]; simpl.
    + f_equal. lia.
    + rewrite IH at 1. f_equal. lia.
Qed.

(** ** Equations of the remaining operations *)

Lemma try_send_v_invalid s channel buf :
  find_channel (channels s) channel = None ->
  coro_bus_try_send_v channel buf s = (-1, set_error CORO_BUS_ERR_NO_CHANNEL s).
Proof.
  intros Hf. unfold coro_bus_try_send_v, bind, get_channels. now rewrite Hf.
Qed.

Lemma try_send_v_valid_full s channel ch buf :
  find_channel (channels s) channel = Some ch ->
  size_limit ch = length (data ch) ->
  coro_bus_try_send_v channel buf s = (-1, set_error CORO_BUS_ERR_WOULD_BLOCK s).
Proof.
  intros Hf He. unfold coro_bus_try_send_v, bind, get_channels. rewrite Hf.
  apply Nat.eqb_eq in He. now rewrite He.
Qed.

Lemma try_send_v_valid_room s channel ch buf :
  find_channel (channels s) channel = Some ch ->
  (length (data ch) < size_limit ch)%nat ->
  let k := Nat.min (length buf) (size_limit ch - length (data ch)) in
  coro_bus_try_send_v channel buf s =
    (Z.of_nat k,
     snd (wakeup_first (recv_queue ch)
            (mkStore (<[Z.to_nat channel :=
                          Some (with_data ch (data ch ++ take k buf))]> (channels s))
                     (global_error s) (trace s)))).
Proof.
  intros Hf Hlt k. unfold coro_bus_try_send_v, bind, get_channels. rewrite Hf.
  destruct (Nat.eqb (size_limit ch) (length (data ch))) eqn:He;
    [apply Nat.eqb_eq in He; lia|].
  rewrite send_v_loop_spec by lia. simpl.
  unfold store_channel, bind, get_channels, put_channels, ret. simpl.
  replace (take (size_limit ch - length (data ch)) buf) with (take k buf).
  - now destruct (wakeup_first _ _) as [[] ?].
  - unfold k. destruct (Nat.le_ge_cases (length buf) (size_limit ch - length (data ch))).
    + rewrite Nat.min_l by lia. now rewrite !take_ge by lia.
    + now rewrite Nat.min_r by lia.
Qed.

Lemma try_recv_v_invalid s channel out capacity :
  find_channel (channels s) channel = None ->
  coro_bus_try_recv_v channel out capacity s =
    ((-1, out), set_error CORO_BUS_ERR_NO_CHANNEL s).
Proof.
  intros Hf. unfold coro_bus_try_recv_v, bind, get_channels. now rewrite Hf.
Qed.

Lemma try_recv_v_valid_empty s channel ch out capacity :
  find_channel (channels s) channel = Some ch ->
  data ch = [] ->
  coro_bus_try_recv_v channel out capacity s =
    ((-1, out), set_error CORO_BUS_ERR_WOULD_BLOCK s).
Proof.
  intros Hf He. unfold coro_bus_try_recv_v, bind, get_channels.
  now rewrite Hf, He.
Qed.

Lemma try_recv_v_valid_nonempty s channel ch out capacity :
  find_channel (channels s) channel = Some ch ->
  data ch <> [] ->
  exists out',
    coro_bus_try_recv_v channel out capacity s =
      ((Z.of_nat (Nat.min capacity (length (data ch))), out'),
       snd (wakeup_first (send_queue ch)
              (mkStore (<[Z.to_nat channel :=
                            Some (with_data ch (drop capacity (data ch)))]> (channels s))
                       (global_error s) (trace s)))).
Proof.
  intros Hf Hne. unfold coro_bus_try_recv_v, bind, get_channels. rewrite Hf.
  destruct (Nat.eqb (length (data ch)) 0) eqn:He.
  { apply Nat.eqb_eq in He. destruct (data ch); [congruence|discriminate]. }
  rewrite recv_v_loop_spec.
  exists (snd (fst (recv_v_loop capacity (data ch) out 0))).
  unfold store_channel, bind, get_channels, put_channels, ret. simpl.
  now destruct (wakeup_first _ _) as [[] ?].
Qed.

(** ** C4: the bounded-queue invariant *)

Lemma bounded_channels_eq s s' :
  channels s' = channels s -> bounded s -> bounded s'.
Proof. unfold bounded. now intros ->. Qed.

Lemma bounded_find s channel ch :
  bounded s -> find_channel (channels s) channel = Some ch ->
  (length (data ch) <= size_limit ch)%nat.
Proof.
  intros Hb Hf. apply find_channel_Some in Hf as [_ Hl].
  unfold bounded in Hb. rewrite Forall_lookup in Hb. exact (Hb _ _ Hl).
Qed.

Lemma bounded_silent {A : Type} (m : M A) s :
  silent m -> bounded s -> bounded (snd (m s)).
Proof. intros Hm. apply bounded_channels_eq, Hm. Qed.

Lemma bounded_insert_then {A : Type} (m : M A) s i slot :
  silent m -> bounded s -> slot_bounded slot ->
  bounded (snd (m (mkStore (<[i := slot]> (channels s)) (global_error s) (trace s)))).
Proof.
  intros Hm Hb Hs. apply bounded_silent; [exact Hm|].
  unfold bounded. simpl. now apply Forall_insert.
Qed.

Lemma silent_ret {A : Type} (a : A) : silent (ret a).
Proof. easy. Qed.

Lemma silent_emit e : silent (emit e).
Proof. easy. Qed.

Lemma bounded_set_error err s : bounded s -> bounded (set_error err s).
Proof. easy. Qed.

Lemma bounded_try_send channel d s :
  bounded s -> bounded (snd (coro_bus_try_send channel d s)).
Proof.
  intros Hb. destruct (find_channel (channels s) channel) as [ch|] eqn:Hf.
  - pose proof (bounded_find _ _ _ Hb Hf) as Hle.
    destruct (Nat.eq_dec (size_limit ch) (length (data ch))) as [He|Hne].
    + now rewrite (try_send_valid_full _ _ _ _ Hf He).
    + rewrite (try_send_valid_not_full _ _ _ _ Hf Hne). simpl.
      apply bounded_insert_then; auto using silent_wakeup_first.
      simpl. rewrite length_app. simpl. lia.
  - now rewrite (try_send_invalid _ _ _ Hf).
Qed.

Lemma bounded_try_recv channel out s :
  bounded s -> bounded (snd (coro_bus_try_recv channel out s)).
Proof.
  intros Hb. destruct (find_channel (channels s) channel) as [ch|] eqn:Hf.
  - pose proof (bounded_find _ _ _ Hb Hf) as Hle.
    destruct (data ch) as [|front rest] eqn:Hd.
    + now rewrite (try_recv_valid_empty _ _ _ _ Hf Hd).
    + rewrite (try_recv_valid_nonempty _ _ _ _ _ _ Hf Hd). simpl.
      apply bounded_insert_then; auto using silent_wakeup_first.
      simpl in *. lia.
  - now rewrite (try_recv_invalid _ _ _ Hf).
Qed.

Lemma bounded_try_send_v channel buf s :
  bounded s -> bounded (snd (coro_bus_try_send_v channel buf s)).
Proof.
  intros Hb. destruct (find_channel (channels s) channel) as [ch|] eqn:Hf.
  - pose proof (bounded_find _ _ _ Hb Hf) as Hle.
    destruct (Nat.eq_dec (size_limit ch) (length (data ch))) as [He|Hne].
    + now rewrite (try_send_v_valid_full _ _ _ _ Hf He).
    + rewrite (try_send_v_valid_room _ _ _ buf Hf) by lia. simpl.
      apply bounded_insert_then; auto using silent_wakeup_first.
      simpl. rewrite length_app, length_take. lia.
  - now rewrite (try_send_v_invalid _ _ _ Hf).
Qed.

Lemma bounded_try_recv_v channel out capacity s :
  bounded s -> bounded (snd (coro_bus_try_recv_v channel out capacity s)).
Proof.
  intros Hb. destruct (find_channel (channels s) channel) as [ch|] eqn:Hf.
  - pose proof (bounded_find _ _ _ Hb Hf) as Hle.
    assert (Hd : data ch = [] \/ data ch <> [])
      by (destruct (data ch); [left|right]; congruence).
    destruct Hd as [Hd|Hd].
    + now rewrite (try_recv_v_valid_empty _ _ _ _ _ Hf Hd).
    + destruct (try_recv_v_valid_nonempty s channel ch out capacity Hf Hd)
        as [out' ->].
      simpl. apply bounded_insert_then; auto using silent_wakeup_first.
      simpl. rewrite length_drop. lia.
  - now rewrite (try_recv_v_invalid _ _ _ _ Hf).
Qed.

Lemma not_full_below chs :
  Forall slot_bounded chs -> existsb live_and_full chs = false ->
  forall d, Forall slot_bounded (map (deliver_slot d) chs).
Proof.
  intros Hb Hnf d. induction Hb as [|slot rest Hs Hrest IH]; simpl; [constructor|].
  simpl in Hnf. apply orb_false_iff in Hnf as [Hslot Hnf].
  constructor; [|auto].
  destruct slot as [ch|]; simpl in *; [|exact I].
  destruct (is_closed ch); simpl in *; [exact Hs|].
  unfold at_capacity in Hslot. apply Nat.leb_gt in Hslot.
  rewrite length_app. simpl. lia.
Qed.

Lemma bounded_try_broadcast d s :
  bounded s -> bounded (snd (coro_bus_try_broadcast d s)).
Proof.
  intros Hb. rewrite try_broadcast_spec.
  destruct (existsb live_and_full (channels s)) eqn:Hfull; [exact Hb|].
  destruct (existsb live (channels s)); [|exact Hb].
  unfold bounded. simpl. now apply not_full_below.
Qed.

Lemma first_free_spec slots i j :
  first_free slots i = Some j ->
  (i <= j)%nat /\ slots !! (j - i)%nat = Some None /\
  forall k, (k < j - i)%nat -> occupied slots k.
Proof.
  revert i. induction slots as [|[ch|] rest IH]; intros i H; simpl in H.
  - discriminate.
  - apply IH in H as (Hle & Hl & Hocc).
    replace (j - i)%nat with (S (j - S i)) by lia.
    split; [lia|]. split; [exact Hl|].
    intros [|k] Hk; [now exists ch|]. apply Hocc. lia.
  - injection H as <-. rewrite Nat.sub_diag.
    split; [lia|]. split; [reflexivity|]. intros k Hk. lia.
Qed.

Lemma first_free_none slots i :
  first_free slots i = None -> forall k, slots !! k <> Some None.
Proof.
  revert i. induction slots as [|[ch|] rest IH]; intros i H k; simpl in H.
  - now rewrite lookup_nil.
  - destruct k as [|k]; simpl; [discriminate|]. eapply IH; eauto.
  - discriminate.
Qed.

Lemma channel_open_spec limit s :
  coro_bus_channel_open limit s =
    match first_free (channels s) 0 with
    | Some i =>
        (Z.of_nat i,
         mkStore (<[i := Some (mkChannel limit [] [] [] false)]> (channels s))
                 (global_error s) (trace s))
    | None =>
        (Z.of_nat (length (channels s)),
         mkStore (channels s ++ [Some (mkChannel limit [] [] [] false)])
                 (global_error s) (trace s))
    end.
Proof.
  unfold coro_bus_channel_open, bind, get_channels, put_channels, ret.
  destruct (first_free (channels s) 0); [reflexivity|].
  simpl. rewrite length_app. simpl. do 2 f_equal. lia.
Qed.

Lemma bounded_channel_open limit s :
  bounded s -> bounded (snd (coro_bus_channel_open limit s)).
Proof.
  intros Hb. rewrite channel_open_spec.
  destruct (first_free (channels s) 0); unfold bounded; simpl.
  - apply Forall_insert; [exact Hb|]. simpl. lia.
  - apply Forall_app. split; [exact Hb|]. constructor; [simpl; lia|constructor].
Qed.

(** ** Equations of the pieces of the blocking operations *)

Lemma find_channel_insert chs channel ch ch' :
  find_channel chs channel = Some ch ->
  find_channel (<[Z.to_nat channel := Some ch']> chs) channel = Some ch'.
Proof.
  intros Hf. apply find_channel_Some in Hf as [Hpos Hl].
  apply find_channel_Some. split; [exact Hpos|].
  apply list_lookup_insert_eq. eapply lookup_lt_Some; eauto.
Qed.

Lemma find_channel_silent {A : Type} (m : M A) s channel :
  silent m ->
  find_channel (channels (snd (m s))) channel = find_channel (channels s) channel.
Proof. intros Hm. now destruct (Hm s) as [-> _]. Qed.

Lemma close_begin_invalid s channel :
  find_channel (channels s) channel = None ->
  coro_bus_channel_close_begin channel s = (ReturnedVoid, s).
Proof.
  intros Hf. unfold coro_bus_channel_close_begin, bind, get_channels.
  now rewrite Hf.
Qed.

Lemma wakeup_all_spec q s :
  wakeup_all q s =
    (tt, mkStore (channels s) (global_error s) (trace s ++ map EvWakeup q)).
Proof.
  revert s. induction q as [|c rest IH]; intros s; simpl.
  - unfold ret. rewrite app_nil_r. now destruct s.
  - unfold bind, emit. rewrite IH. simpl. now rewrite <- app_assoc.
Qed.

Lemma close_begin_valid s channel ch :
  find_channel (channels s) channel = Some ch ->
  coro_bus_channel_close_begin channel s =
    (Yielded,
     mkStore (<[Z.to_nat channel := Some (with_is_closed ch true)]> (channels s))
             (global_error s)
             (trace s ++ map EvWakeup (send_queue ch)
                      ++ map EvWakeup (recv_queue ch) ++ [EvYield])).
Proof.
  intros Hf. unfold coro_bus_channel_close_begin, bind, get_channels.
  rewrite Hf. unfold store_channel, bind, get_channels, put_channels.
  rewrite !wakeup_all_spec. unfold emit, ret. simpl.
  now rewrite <- !app_assoc.
Qed.

Lemma close_finish_invalid s channel :
  find_channel (channels s) channel = None ->
  coro_bus_channel_close_finish channel s = (Fault, s).
Proof.
  intros Hf. unfold coro_bus_channel_close_finish, bind, get_channels.
  now rewrite Hf.
Qed.

Lemma close_finish_valid s channel ch :
  find_channel (channels s) channel = Some ch ->
  coro_bus_channel_close_finish channel s =
    (ReturnedVoid,
     mkStore (<[Z.to_nat channel := None]> (channels s)) (global_error s)
             (trace s ++ [EvDelete (Z.to_nat channel)])).
Proof.
  intros Hf. unfold coro_bus_channel_close_finish, bind, get_channels.
  now rewrite Hf.
Qed.

Lemma blocking_enter_spec channel s :
  blocking_enter channel s =
    match find_channel (channels s) channel with
    | None => (Returned (-1), set_error CORO_BUS_ERR_NO_CHANNEL s)
    | Some _ => (Again, s)
    end.
Proof.
  unfold blocking_enter, deref, bind, get_channels, ret.
  now destruct (find_channel (channels s) channel).
Qed.

Lemma park_sender_spec self channel s :
  park_sender self channel s =
    match find_channel (channels s) channel with
    | None => (Fault, s)
    | Some ch =>
        (Suspended (Z.to_nat channel),
         mkStore (<[Z.to_nat channel :=
                      Some (with_send_queue ch (send_queue ch ++ [self]))]> (channels s))
                 (global_error s) (trace s ++ [EvSuspend]))
    end.
Proof.
  unfold park_sender, deref, bind, get_channels, ret.
  now destruct (find_channel (channels s) channel).
Qed.

Lemma park_receiver_spec self channel s :
  park_receiver self channel s =
    match find_channel (channels s) channel with
    | None => (Fault, s)
    | Some ch =>
        (Suspended (Z.to_nat channel),
         mkStore (<[Z.to_nat channel :=
                      Some (with_recv_queue ch (recv_queue ch ++ [self]))]> (channels s))
                 (global_error s) (trace s ++ [EvSuspend]))
    end.
Proof.
  unfold park_receiver, deref, bind, get_channels, ret.
  now destruct (find_channel (channels s) channel).
Qed.

Lemma resume_sender_spec self slot s :
  resume_sender self slot s =
    match channels s !! slot with
    | Some (Some ch) =>
        (Again,
         mkStore (<[slot := Some (with_send_queue ch (rlist_del self (send_queue ch)))]>
                    (channels s))
                 (global_error s) (trace s))
    | _ => (Fault, s)
    end.
Proof.
  unfold resume_sender, deref, bind, get_channels, ret.
  destruct (find_channel (channels s) (Z.of_nat slot)) as [ch|] eqn:Hf.
  - apply find_channel_slot in Hf. rewrite Hf.
    unfold store_channel, bind, get_channels, put_channels. simpl.
    now rewrite Nat2Z.id.
  - destruct (channels s !! slot) as [[ch|]|] eqn:Hl; try reflexivity.
    apply find_channel_slot in Hl. congruence.
Qed.

Lemma resume_receiver_spec self slot s :
  resume_receiver self slot s =
    match channels s !! slot with
    | Some (Some ch) =>
        (Again,
         mkStore (<[slot := Some (with_recv_queue ch (rlist_del self (recv_queue ch)))]>
                    (channels s))
                 (global_error s) (trace s))
    | _ => (Fault, s)
    end.
Proof.
  unfold resume_receiver, deref, bind, get_channels, ret.
  destruct (find_channel (channels s) (Z.of_nat slot)) as [ch|] eqn:Hf.
  - apply find_channel_slot in Hf. rewrite Hf.
    unfold store_channel, bind, get_channels, put_channels. simpl.
    now rewrite Nat2Z.id.
  - destruct (channels s !! slot) as [[ch|]|] eqn:Hl; try reflexivity.
    apply find_channel_slot in Hl. congruence.
Qed.

Lemma send_body_cases self channel d s :
  coro_bus_send_body self channel d s =
    match find_channel (channels s) channel with
    | None => (Fault, s)
    | Some ch =>
        if is_closed ch then (Returned (-1), set_error CORO_BUS_ERR_NO_CHANNEL s)
        else if Nat.eqb (size_limit ch) (length (data ch)) then
          park_sender self channel (set_error CORO_BUS_ERR_WOULD_BLOCK s)
        else
          (Returned 0,
           snd (wakeup_sender_if_room (with_data ch (data ch ++ [d]))
                  (snd (coro_bus_try_send channel d s))))
    end.
Proof.
  unfold coro_bus_send_body, deref. unfold bind, get_channels, ret.
  destruct (find_channel (channels s) channel) as [ch|] eqn:Hf; [|reflexivity].
  destruct (is_closed ch); [reflexivity|].
  destruct (Nat.eqb (size_limit ch) (length (data ch))) eqn:He.
  - apply Nat.eqb_eq in He. rewrite (try_send_valid_full _ _ _ _ Hf He).
    reflexivity.
  - apply Nat.eqb_neq in He. rewrite (try_send_valid_not_full _ _ _ _ Hf He).
    cbn [coro_bus_errno Z.eqb andb fst snd].
    rewrite find_channel_silent by apply silent_wakeup_first.
    cbn [channels]. rewrite (find_channel_insert _ _ _ _ Hf).
    now destruct (wakeup_sender_if_room _ _) as [[] ?].
Qed.

Lemma recv_body_cases self channel out s :
  coro_bus_recv_body self channel out s =
    match find_channel (channels s) channel with
    | None => ((Fault, out), s)
    | Some ch =>
        if is_closed ch then
          ((Returned (-1), out), set_error CORO_BUS_ERR_NO_CHANNEL s)
        else
          match data ch with
          | [] =>
              let (o, s') :=
                park_receiver self channel (set_error CORO_BUS_ERR_WOULD_BLOCK s) in
              ((o, out), s')
          | front :: rest =>
              ((Returned 0, front),
               snd (wakeup_receiver_if_data (with_data ch rest)
                      (snd (coro_bus_try_recv channel out s))))
          end
    end.
Proof.
  unfold coro_bus_recv_body, deref. unfold bind, get_channels, ret.
  destruct (find_channel (channels s) channel) as [ch|] eqn:Hf; [|reflexivity].
  destruct (is_closed ch); [reflexivity|].
  destruct (data ch) as [|front rest] eqn:Hd.
  - rewrite (try_recv_valid_empty _ _ _ _ Hf Hd).
    cbn [coro_bus_errno Z.eqb andb fst snd global_error set_error error_code_eqb].
    reflexivity.
  - rewrite (try_recv_valid_nonempty _ _ _ _ _ _ Hf Hd).
    cbn [coro_bus_errno Z.eqb andb fst snd].
    rewrite find_channel_silent by apply silent_wakeup_first.
    cbn [channels]. rewrite (find_channel_insert _ _ _ _ Hf).
    now destruct (wakeup_receiver_if_data _ _) as [[] ?].
Qed.

Lemma try_send_v_valid_not_full s channel ch buf :
  find_channel (channels s) channel = Some ch ->
  size_limit ch <> length (data ch) ->
  coro_bus_try_send_v channel buf s =
    (Z.of_nat (snd (send_v_loop (size_limit ch) buf (data ch) 0)),
     snd (wakeup_first (recv_queue ch)
            (mkStore (<[Z.to_nat channel :=
                          Some (with_data ch
                                  (fst (send_v_loop (size_limit ch) buf (data ch) 0)))]>
                        (channels s))
                     (global_error s) (trace s)))).
Proof.
  intros Hf Hne. unfold coro_bus_try_send_v, bind, get_channels. rewrite Hf.
  apply Nat.eqb_neq in Hne. rewrite Hne.
  destruct (send_v_loop _ _ _ _) as [q send_c].
  unfold store_channel, bind, get_channels, put_channels, ret. simpl.
  now destruct (wakeup_first _ _) as [[] ?].
Qed.

Lemma of_nat_not_minus_one (n : nat) : (Z.of_nat n =? -1) = false.
Proof. apply Z.eqb_neq. lia. Qed.

Lemma of_nat_nonneg (n : nat) : (0 <=? Z.of_nat n) = true.
Proof. apply Z.leb_le. lia. Qed.

Lemma send_v_body_cases self channel buf s :
  coro_bus_send_v_body self channel buf s =
    match find_channel (channels s) channel with
    | None => (Fault, s)
    | Some ch =>
        if is_closed ch then (Returned (-1), set_error CORO_BUS_ERR_NO_CHANNEL s)
        else if Nat.eqb (size_limit ch) (length (data ch)) then
          park_sender self channel (set_error CORO_BUS_ERR_WOULD_BLOCK s)
        else
          (Returned (fst (coro_bus_try_send_v channel buf s)),
           snd (wakeup_sender_if_room
                  (with_data ch (fst (send_v_loop (size_limit ch) buf (data ch) 0)))
                  (snd (coro_bus_try_send_v channel buf s))))
    end.
Proof.
  unfold coro_bus_send_v_body, deref. unfold bind, get_channels, ret.
  destruct (find_channel (channels s) channel) as [ch|] eqn:Hf; [|reflexivity].
  destruct (is_closed ch); [reflexivity|].
  destruct (Nat.eqb (size_limit ch) (length (data ch))) eqn:He.
  - apply Nat.eqb_eq in He. rewrite (try_send_v_valid_full _ _ _ _ Hf He).
    reflexivity.
  - apply Nat.eqb_neq in He. rewrite (try_send_v_valid_not_full _ _ _ _ Hf He).
    cbn [coro_bus_errno fst snd].
    rewrite of_nat_not_minus_one, of_nat_nonneg. cbn [andb].
    rewrite find_channel_silent by apply silent_wakeup_first.
    cbn [channels]. rewrite (find_channel_insert _ _ _ _ Hf).
    now destruct (wakeup_sender_if_room _ _) as [[] ?].
Qed.

Lemma try_recv_v_valid_nonempty_eq s channel ch out capacity :
  find_channel (channels s) channel = Some ch ->
  data ch <> [] ->
  coro_bus_try_recv_v channel out capacity s =
    ((Z.of_nat (Nat.min capacity (length (data ch))),
      snd (fst (recv_v_loop capacity (data ch) out 0))),
     snd (wakeup_first (send_queue ch)
            (mkStore (<[Z.to_nat channel :=
                          Some (with_data ch (drop capacity (data ch)))]> (channels s))
                     (global_error s) (trace s)))).
Proof.
  intros Hf Hne. unfold coro_bus_try_recv_v, bind, get_channels. rewrite Hf.
  destruct (Nat.eqb (length (data ch)) 0) eqn:He.
  { apply Nat.eqb_eq in He. destruct (data ch); [congruence|discriminate]. }
  rewrite recv_v_loop_spec.
  unfold store_channel, bind, get_channels, put_channels, ret. simpl.
  now destruct (wakeup_first _ _) as [[] ?].
Qed.

Lemma recv_v_body_cases self channel capacity out s :
  coro_bus_recv_v_body self channel capacity out s =
    match find_channel (channels s) channel with
    | None => ((Fault, out), s)
    | Some ch =>
        if is_closed ch then
          ((Returned (-1), out), set_error CORO_BUS_ERR_NO_CHANNEL s)
        else
          match data ch with
          | [] =>
              let (o, s') :=
                park_receiver self channel (set_error CORO_BUS_ERR_WOULD_BLOCK s) in
              ((o, out), s')
          | _ :: _ =>
              ((Returned (Z.of_nat (Nat.min capacity (length (data ch)))),
                snd (fst (recv_v_loop capacity (data ch) out 0))),
               snd (wakeup_receiver_if_data
                      (with_data ch (drop capacity (data ch)))
                      (snd (coro_bus_try_recv_v channel out capacity s))))
          end
    end.
Proof.
  unfold coro_bus_recv_v_body, deref. unfold bind, get_channels, ret.
  destruct (find_channel (channels s) channel) as [ch|] eqn:Hf; [|reflexivity].
  destruct (is_closed ch); [reflexivity|].
  assert (Hd : data ch = [] \/ data ch <> [])
    by (destruct (data ch); [left|right]; congruence).
  destruct Hd as [Hd|Hd].
  - rewrite (try_recv_v_valid_empty _ _ _ _ _ Hf Hd). rewrite Hd.
    cbn [coro_bus_errno Z.eqb andb fst snd global_error set_error error_code_eqb].
    reflexivity.
  - rewrite (try_recv_v_valid_nonempty_eq _ _ _ _ _ Hf Hd).
    cbn [coro_bus_errno fst snd].
    rewrite of_nat_not_minus_one, of_nat_nonneg. cbn [andb].
    rewrite find_channel_silent by apply silent_wakeup_first.
    cbn [channels]. rewrite (find_channel_insert _ _ _ _ Hf).
    destruct (data ch) as [|front rest] eqn:Hd'; [congruence|].
    destruct (wakeup_receiver_if_data _ _) as [[] ?]. reflexivity.
Qed.

Lemma broadcast_body_cases self d s :
  coro_bus_broadcast_body self d s =
    if existsb live_and_full (channels s) then
      match find_blocking (channels s) 0 with
      | None => (Returned (-1), set_error CORO_BUS_ERR_WOULD_BLOCK s)
      | Some i =>
          park_sender self (Z.of_nat i) (set_error CORO_BUS_ERR_WOULD_BLOCK s)
      end
    else if existsb live (channels s) then
      (Returned 0,
       snd (broadcast_wakeup_senders (map (deliver_slot d) (channels s))
              (snd (coro_bus_try_broadcast d s))))
    else (Returned (-1), set_error CORO_BUS_ERR_NO_CHANNEL s).
Proof.
  unfold coro_bus_broadcast_body. unfold bind, get_channels, ret.
  rewrite try_broadcast_spec.
  destruct (existsb live_and_full (channels s)).
  - cbn [coro_bus_errno Z.eqb Pos.eqb andb fst snd global_error set_error
         error_code_eqb channels].
    now destruct (find_blocking (channels s) 0).
  - destruct (existsb live (channels s)).
    + cbn [coro_bus_errno Z.eqb andb fst snd channels].
      now destruct (broadcast_wakeup_senders _ _) as [[] ?].
    + reflexivity.
Qed.

(** ** Every action keeps the queues bounded *)

Lemma bounded_store_insert s i slot err tr :
  bounded s -> slot_bounded slot ->
  bounded (mkStore (<[i := slot]> (channels s)) err tr).
Proof. intros Hb Hs. unfold bounded. simpl. now apply Forall_insert. Qed.

Lemma bounded_close_begin channel s :
  bounded s -> bounded (snd (coro_bus_channel_close_begin channel s)).
Proof.
  intros Hb. destruct (find_channel (channels s) channel) as [ch|] eqn:Hf.
  - rewrite (close_begin_valid _ _ _ Hf). simpl.
    apply bounded_store_insert; [exact Hb|]. exact (bounded_find _ _ _ Hb Hf).
  - now rewrite (close_begin_invalid _ _ Hf).
Qed.

Lemma bounded_close_finish channel s :
  bounded s -> bounded (snd (coro_bus_channel_close_finish channel s)).
Proof.
  intros Hb. destruct (find_channel (channels s) channel) as [ch|] eqn:Hf.
  - rewrite (close_finish_valid _ _ _ Hf). simpl.
    now apply bounded_store_insert.
  - now rewrite (close_finish_invalid _ _ Hf).
Qed.

Lemma bounded_blocking_enter channel s :
  bounded s -> bounded (snd (blocking_enter channel s)).
Proof.
  intros Hb. rewrite blocking_enter_spec.
  now destruct (find_channel (channels s) channel).
Qed.

Lemma bounded_park_sender self channel s :
  bounded s -> bounded (snd (park_sender self channel s)).
Proof.
  intros Hb. rewrite park_sender_spec.
  destruct (find_channel (channels s) channel) as [ch|] eqn:Hf; [|exact Hb].
  simpl. apply bounded_store_insert; [exact Hb|]. exact (bounded_find _ _ _ Hb Hf).
Qed.

Lemma bounded_park_receiver self channel s :
  bounded s -> bounded (snd (park_receiver self channel s)).
Proof.
  intros Hb. rewrite park_receiver_spec.
  destruct (find_channel (channels s) channel) as [ch|] eqn:Hf; [|exact Hb].
  simpl. apply bounded_store_insert; [exact Hb|]. exact (bounded_find _ _ _ Hb Hf).
Qed.

Lemma bounded_resume_sender self slot s :
  bounded s -> bounded (snd (resume_sender self slot s)).
Proof.
  intros Hb. rewrite resume_sender_spec.
  destruct (channels s !! slot) as [[ch|]|] eqn:Hl; try exact Hb.
  simpl. apply bounded_store_insert; [exact Hb|].
  unfold bounded in Hb. rewrite Forall_lookup in Hb. exact (Hb _ _ Hl).
Qed.

Lemma bounded_resume_receiver self slot s :
  bounded s -> bounded (snd (resume_receiver self slot s)).
Proof.
  intros Hb. rewrite resume_receiver_spec.
  destruct (channels s !! slot) as [[ch|]|] eqn:Hl; try exact Hb.
  simpl. apply bounded_store_insert; [exact Hb|].
  unfold bounded in Hb. rewrite Forall_lookup in Hb. exact (Hb _ _ Hl).
Qed.

Lemma bounded_send_body self channel d s :
  bounded s -> bounded (snd (coro_bus_send_body self channel d s)).
Proof.
  intros Hb. rewrite send_body_cases.
  destruct (find_channel (channels s) channel) as [ch|]; [|exact Hb].
  destruct (is_closed ch); [exact Hb|].
  destruct (Nat.eqb _ _).
  - now apply bounded_park_sender.
  - simpl. apply bounded_silent; [apply silent_wakeup_sender_if_room|].
    now apply bounded_try_send.
Qed.

Lemma bounded_recv_body self channel out s :
  bounded s -> bounded (snd (coro_bus_recv_body self channel out s)).
Proof.
  intros Hb. rewrite recv_body_cases.
  destruct (find_channel (channels s) channel) as [ch|]; [|exact Hb].
  destruct (is_closed ch); [exact Hb|].
  destruct (data ch).
  - pose proof (bounded_park_receiver self channel
                  (set_error CORO_BUS_ERR_WOULD_BLOCK s) Hb) as Hp.
    now destruct (park_receiver _ _ _).
  - simpl. apply bounded_silent; [apply silent_wakeup_receiver_if_data|].
    now apply bounded_try_recv.
Qed.

Lemma bounded_send_v_body self channel buf s :
  bounded s -> bounded (snd (coro_bus_send_v_body self channel buf s)).
Proof.
  intros Hb. rewrite send_v_body_cases.
  destruct (find_channel (channels s) channel) as [ch|]; [|exact Hb].
  destruct (is_closed ch); [exact Hb|].
  destruct (Nat.eqb _ _).
  - now apply bounded_park_sender.
  - simpl. apply bounded_silent; [apply silent_wakeup_sender_if_room|].
    now apply bounded_try_send_v.
Qed.

Lemma bounded_recv_v_body self channel capacity out s :
  bounded s -> bounded (snd (coro_bus_recv_v_body self channel capacity out s)).
Proof.
  intros Hb. rewrite recv_v_body_cases.
  destruct (find_channel (channels s) channel) as [ch|]; [|exact Hb].
  destruct (is_closed ch); [exact Hb|].
  destruct (data ch).
  - pose proof (bounded_park_receiver self channel
                  (set_error CORO_BUS_ERR_WOULD_BLOCK s) Hb) as Hp.
    now destruct (park_receiver _ _ _).
  - simpl. apply bounded_silent; [apply silent_wakeup_receiver_if_data|].
    now apply bounded_try_recv_v.
Qed.

Lemma bounded_broadcast_body self d s :
  bounded s -> bounded (snd (coro_bus_broadcast_body self d s)).
Proof.
  intros Hb. rewrite broadcast_body_cases.
  destruct (existsb live_and_full (channels s)).
  - destruct (find_blocking (channels s) 0); [|exact Hb].
    now apply bounded_park_sender.
  - destruct (existsb live (channels s)); [|exact Hb].
    simpl. apply bounded_silent; [apply silent_broadcast_wakeup_senders|].
    now apply bounded_try_broadcast.
Qed.

Lemma snd_returning {A : Type} (m : M A) (f : A -> outcome) s :
  snd (returning m f s) = snd (m s).
Proof. unfold returning, bind, ret. now destruct (m s). Qed.

Lemma fst_returning {A : Type} (m : M A) (f : A -> outcome) s :
  fst (returning m f s) = f (fst (m s)).
Proof. unfold returning, bind, ret. now destruct (m s). Qed.

Lemma bounded_perform a s : bounded s -> bounded (snd (perform a s)).
Proof.
  intros Hb. destruct a; cbn [perform]; rewrite ?snd_returning.
  - exact Hb.
  - now apply bounded_channel_open.
  - now apply bounded_close_begin.
  - now apply bounded_close_finish.
  - now apply bounded_try_send.
  - now apply bounded_try_recv.
  - now apply bounded_try_broadcast.
  - now apply bounded_try_send_v.
  - now apply bounded_try_recv_v.
  - now apply bounded_blocking_enter.
  - now apply bounded_send_body.
  - now apply bounded_recv_body.
  - now apply bounded_send_v_body.
  - now apply bounded_recv_v_body.
  - now apply bounded_broadcast_body.
  - now apply bounded_resume_sender.
  - now apply bounded_resume_receiver.
Qed.

Lemma bounded_step s s' : bounded s -> step s s' -> bounded s'.
Proof.
  intros Hb (a & o & Hp & _).
  pose proof (bounded_perform a s Hb) as H. now rewrite Hp in H.
Qed.

Lemma bounded_steps s s' : bounded s -> rtc step s s' -> bounded s'.
Proof. intros Hb Hs. induction Hs; eauto using bounded_step. Qed.

Lemma bounded_new : bounded coro_bus_new.
Proof. constructor. Qed.

Lemma reachable_bounded s : reachable s -> bounded s.
Proof. apply bounded_steps, bounded_new. Qed.

(** C4.  In every store the program can reach from [coro_bus_new] by pieces
    of bus operations (open, close, the try- and vectorized variants,
    broadcast, and the rounds of the blocking operations), the queue of every
    channel is at most as long as its capacity. *)
Theorem queue_length_bounded s :
  reachable s ->
  forall (i : nat) ch,
    channels s !! i = Some (Some ch) ->
    (length (data ch) <= size_limit ch)%nat.
Proof.
  intros Hr i ch Hl. apply reachable_bounded in Hr.
  unfold bounded in Hr. rewrite Forall_lookup in Hr. exact (Hr _ _ Hl).
Qed.

Lemma queue_length_bounded_witness :
  let s := snd (coro_bus_try_send 0 4%N
                  (snd (coro_bus_channel_open 1 coro_bus_new))) in
  reachable s /\
  channels s !! 0%nat = Some (Some (mkChannel 1 [] [] [4%N] false)) /\
  (length (data (mkChannel 1 [] [] [4%N] false)) <=
   size_limit (mkChannel 1 [] [] [4%N] false))%nat.
Proof.
  assert (Hr : reachable (snd (coro_bus_try_send 0 4%N
                                 (snd (coro_bus_channel_open 1 coro_bus_new))))).
  { apply (reachable_perform (ActTrySend 0 4%N)
             (snd (coro_bus_channel_open 1 coro_bus_new))); [|reflexivity..].
    apply (reachable_perform (ActChannelOpen 1) coro_bus_new); [|reflexivity..].
    apply rtc_refl. }
  split; [exact Hr|]. split; [reflexivity|].
  exact (queue_length_bounded _ Hr 0%nat _ eq_refl).
Defined.

(** ** C5: the close protocol *)

(** The protocol on any id that passes the check (the code does not look at
    [is_closed]): the flag is set, every linked sender and then every linked
    receiver is woken once, the closer yields once; after the yield the
    channel is deleted and its slot emptied. *)
Lemma channel_close_valid s channel ch :
  find_channel (channels s) channel = Some ch ->
  coro_bus_channel_close channel s =
    (ReturnedVoid,
     mkStore (<[Z.to_nat channel := None]> (channels s)) (global_error s)
             (trace s ++ map EvWakeup (send_queue ch)
                      ++ map EvWakeup (recv_queue ch)
                      ++ [EvYield; EvDelete (Z.to_nat channel)])).
Proof.
  intros Hf. unfold coro_bus_channel_close, bind.
  rewrite (close_begin_valid _ _ _ Hf).
  erewrite close_finish_valid
    by (cbn [channels]; eapply find_channel_insert; eauto).
  cbn [channels global_error trace]. f_equal. f_equal.
  - apply list_insert_insert_eq.
  - now rewrite <- !app_assoc.
Qed.

Lemma channel_close_invalid s channel :
  find_channel (channels s) channel = None ->
  coro_bus_channel_close channel s = (ReturnedVoid, s).
Proof.
  intros Hf. unfold coro_bus_channel_close, bind.
  now rewrite (close_begin_invalid _ _ Hf).
Qed.

(** C5 (defect of the code).  Channel 0 has capacity 1, holds one message,
    and coroutine 7 is parked in [coro_bus_send] on it.  A first closer has
    set [is_closed] and is inside [coro_yield].  A second
    [coro_bus_channel_close] on the same id, run now, is not a no-op: it
    wakes coroutine 7 again and yields, and once the first closer has
    deleted the channel, the second one deletes it again through a dangling
    pointer. *)
Theorem close_of_closed_channel_runs_again :
  let s0 := snd (coro_bus_send_body 7%nat 0 2%N
             (snd (coro_bus_try_send 0 1%N
               (snd (coro_bus_channel_open 1 coro_bus_new))))) in
  let s := snd (coro_bus_channel_close_begin 0 s0) in
  reachable s /\
  find_channel (channels s) 0 = Some (mkChannel 1 [7%nat] [] [1%N] true) /\
  coro_bus_channel_close_begin 0 s =
    (Yielded,
     mkStore (channels s) (global_error s)
             (trace s ++ [EvWakeup 7%nat; EvYield])) /\
  let s1 := snd (coro_bus_channel_close_begin 0 s) in
  let s2 := snd (coro_bus_channel_close_finish 0 s1) in
  fst (coro_bus_channel_close_finish 0 s1) = ReturnedVoid /\
  fst (coro_bus_channel_close_finish 0 s2) = Fault.
Proof.
  intros s0 s. split; [|repeat split; reflexivity]. subst s s0.
  reach_by (ActCloseBegin 0). reach_by (ActSendBody 7%nat 0 2%N).
  reach_by (ActTrySend 0 1%N). reach_by (ActChannelOpen 1).
  apply rtc_refl.
Qed.

(** ** C6: the vectorized send *)

(** On a valid id whose queue has room, whatever [is_closed] says, a
    non-empty batch puts [k = min(n, capacity - len)] values, [1 <= k], the
    first [k] of the buffer in order, at the back of the queue; only that
    queue changes. *)
Lemma try_send_v_with_room s channel ch buf :
  find_channel (channels s) channel = Some ch ->
  (length (data ch) < size_limit ch)%nat ->
  buf <> [] ->
  let k := Nat.min (length buf) (size_limit ch - length (data ch)) in
  let (r, s') := coro_bus_try_send_v channel buf s in
  r = Z.of_nat k /\ 1 <= r /\
  channels s' =
    <[Z.to_nat channel := Some (with_data ch (data ch ++ take k buf))]> (channels s) /\
  global_error s' = global_error s.
Proof.
  intros Hf Hlt Hne k.
  rewrite (try_send_v_valid_room _ _ _ buf Hf Hlt). fold k.
  split; [reflexivity|]. split.
  - destruct buf; [congruence|]. unfold k. simpl length. lia.
  - destruct (silent_wakeup_first (recv_queue ch)
                (mkStore (<[Z.to_nat channel :=
                              Some (with_data ch (data ch ++ take k buf))]> (channels s))
                         (global_error s) (trace s))) as [H1 H2].
    split; [exact H1|exact H2].
Qed.

(** C6 (defect of the code).  Channel 0 has capacity 3 and a close of it is
    under way; [coro_bus_try_send_v] with the batch [1; 2] returns 2 and
    queues both values on the closed channel instead of failing with
    NO_CHANNEL. *)
Theorem try_send_v_on_closed_channel_enqueues :
  let s := snd (coro_bus_channel_close_begin 0
                  (snd (coro_bus_channel_open 3 coro_bus_new))) in
  reachable s /\
  find_channel (channels s) 0 = Some (mkChannel 3 [] [] [] true) /\
  coro_bus_try_send_v 0 [1; 2]%N s =
    (2, mkStore [Some (mkChannel 3 [] [] [1; 2]%N true)] CORO_BUS_ERR_NONE [EvYield]).
Proof.
  intros s. split; [|split; reflexivity]. subst s.
  reach_by (ActCloseBegin 0). reach_by (ActChannelOpen 3).
  apply rtc_refl.
Qed.

(** ** C7: a blocking operation never surfaces WOULD_BLOCK *)

(** With bounded queues, a live channel that [coro_bus_try_broadcast] found
    at capacity is found again by the search for the channel to wait on. *)
Lemma find_blocking_some chs i0 :
  Forall slot_bounded chs -> existsb live_and_full chs = true ->
  exists i, find_blocking chs i0 = Some i.
Proof.
  intros Hb. revert i0. induction Hb as [|slot rest Hs Hrest IH]; intros i0 Hex.
  - discriminate.
  - simpl in Hex. destruct slot as [ch|]; simpl in *.
    + unfold at_capacity in Hex.
      destruct (is_closed ch); simpl in *; [now apply IH|].
      destruct (size_limit ch <=? length (data ch))%nat eqn:Hle; simpl in Hex.
      * apply Nat.leb_le in Hle.
        replace (Nat.eqb (size_limit ch) (length (data ch))) with true
          by (symmetry; apply Nat.eqb_eq; lia).
        eauto.
      * destruct (Nat.eqb (size_limit ch) (length (data ch))); eauto.
    + now apply IH.
Qed.

Lemma park_sender_not_returned self channel s r :
  fst (park_sender self channel s) <> Returned r.
Proof.
  rewrite park_sender_spec. now destruct (find_channel (channels s) channel).
Qed.

Lemma park_receiver_not_returned self channel s r :
  fst (park_receiver self channel s) <> Returned r.
Proof.
  rewrite park_receiver_spec. now destruct (find_channel (channels s) channel).
Qed.

Lemma send_body_failure self channel d s s' :
  coro_bus_send_body self channel d s = (Returned (-1), s') ->
  global_error s' = CORO_BUS_ERR_NO_CHANNEL.
Proof.
  rewrite send_body_cases.
  destruct (find_channel (channels s) channel) as [ch|]; [|discriminate].
  destruct (is_closed ch); [now intros [= <-]|].
  destruct (Nat.eqb _ _); [|discriminate].
  intros H. exfalso.
  apply (park_sender_not_returned self channel
           (set_error CORO_BUS_ERR_WOULD_BLOCK s) (-1)).
  now rewrite H.
Qed.

Lemma recv_body_failure self channel out s out' s' :
  coro_bus_recv_body self channel out s = ((Returned (-1), out'), s') ->
  global_error s' = CORO_BUS_ERR_NO_CHANNEL.
Proof.
  rewrite recv_body_cases.
  destruct (find_channel (channels s) channel) as [ch|]; [|discriminate].
  destruct (is_closed ch); [now intros [= <- <-]|].
  destruct (data ch); [|discriminate].
  pose proof (park_receiver_not_returned self channel
                (set_error CORO_BUS_ERR_WOULD_BLOCK s) (-1)) as Hp.
  destruct (park_receiver _ _ _) as [o s1]. simpl in Hp.
  intros [= -> _ _]. congruence.
Qed.

Lemma send_v_body_failure self channel buf s s' :
  coro_bus_send_v_body self channel buf s = (Returned (-1), s') ->
  global_error s' = CORO_BUS_ERR_NO_CHANNEL.
Proof.
  rewrite send_v_body_cases.
  destruct (find_channel (channels s) channel) as [ch|] eqn:Hf; [|discriminate].
  destruct (is_closed ch); [now intros [= <-]|].
  destruct (Nat.eqb _ _) eqn:He.
  - intros H. exfalso.
    apply (park_sender_not_returned self channel
             (set_error CORO_BUS_ERR_WOULD_BLOCK s) (-1)).
    now rewrite H.
  - apply Nat.eqb_neq in He.
    rewrite (try_send_v_valid_not_full _ _ _ _ Hf He). simpl.
    intros [= H _]. lia.
Qed.

Lemma recv_v_body_failure self channel capacity out s out' s' :
  coro_bus_recv_v_body self channel capacity out s = ((Returned (-1), out'), s') ->
  global_error s' = CORO_BUS_ERR_NO_CHANNEL.
Proof.
  rewrite recv_v_body_cases.
  destruct (find_channel (channels s) channel) as [ch|]; [|discriminate].
  destruct (is_closed ch); [now intros [= <- <-]|].
  destruct (data ch).
  - pose proof (park_receiver_not_returned self channel
                  (set_error CORO_BUS_ERR_WOULD_BLOCK s) (-1)) as Hp.
    destruct (park_receiver _ _ _) as [o s1]. simpl in Hp.
    intros [= -> _ _]. congruence.
  - intros [= H _ _]. lia.
Qed.

Lemma broadcast_body_failure self d s s' :
  bounded s ->
  coro_bus_broadcast_body self d s = (Returned (-1), s') ->
  global_error s' = CORO_BUS_ERR_NO_CHANNEL.
Proof.
  intros Hb. rewrite broadcast_body_cases.
  destruct (existsb live_and_full (channels s)) eqn:Hfull.
  - destruct (find_blocking_some _ 0%nat Hb Hfull) as [i ->].
    intros H. exfalso.
    apply (park_sender_not_returned self (Z.of_nat i)
             (set_error CORO_BUS_ERR_WOULD_BLOCK s) (-1)).
    now rewrite H.
  - destruct (existsb live (channels s)); [discriminate|].
    now intros [= <-].
Qed.

Lemma no_out_inv (m : M outcome) b s o b' s' :
  no_out m b s = ((o, b'), s') -> m s = (o, s').
Proof.
  unfold no_out, bind, ret. destruct (m s) as [o1 s1]. now intros [= -> _ ->].
Qed.

Lemma blocking_body_failure {B : Type} (op : blocking_op B) b s b' s' :
  bus_blocking op -> bounded s ->
  op_body op b s = ((Returned (-1), b'), s') ->
  global_error s' = CORO_BUS_ERR_NO_CHANNEL.
Proof.
  intros Hop Hb. destruct Hop; cbn [op_body coro_bus_send coro_bus_recv
    coro_bus_send_v coro_bus_recv_v coro_bus_broadcast]; intros H.
  - eapply send_body_failure, no_out_inv, H.
  - eapply recv_body_failure, H.
  - eapply send_v_body_failure, no_out_inv, H.
  - eapply recv_v_body_failure, H.
  - eapply broadcast_body_failure, no_out_inv, H. exact Hb.
Qed.

Lemma snd_no_out (m : M outcome) b s : snd (no_out m b s) = snd (m s).
Proof. unfold no_out, bind, ret. now destruct (m s). Qed.

Lemma blocking_body_bounded {B : Type} (op : blocking_op B) b s :
  bus_blocking op -> bounded s -> bounded (snd (op_body op b s)).
Proof.
  intros Hop Hb. destruct Hop; cbn [op_body coro_bus_send coro_bus_recv
    coro_bus_send_v coro_bus_recv_v coro_bus_broadcast]; rewrite ?snd_no_out.
  - now apply bounded_send_body.
  - now apply bounded_recv_body.
  - now apply bounded_send_v_body.
  - now apply bounded_recv_v_body.
  - now apply bounded_broadcast_body.
Qed.

Lemma blocking_resume_bounded {B : Type} (op : blocking_op B) slot s :
  bus_blocking op -> bounded s -> bounded (snd (op_resume op slot s)).
Proof.
  intros Hop Hb. destruct Hop; cbn [op_resume coro_bus_send coro_bus_recv
    coro_bus_send_v coro_bus_recv_v coro_bus_broadcast];
    auto using bounded_resume_sender, bounded_resume_receiver.
Qed.

Lemma blocking_enter_op {B : Type} (op : blocking_op B) s r s' :
  bus_blocking op -> op_enter op s = (Returned r, s') ->
  r = -1 /\ global_error s' = CORO_BUS_ERR_NO_CHANNEL.
Proof.
  intros Hop. destruct Hop; cbn [op_enter coro_bus_send coro_bus_recv
    coro_bus_send_v coro_bus_recv_v coro_bus_broadcast];
    try discriminate;
    rewrite blocking_enter_spec;
    (destruct (find_channel (channels s) channel); [discriminate|]);
    now intros [= <- <-].
Qed.

Lemma blocking_enter_bounded {B : Type} (op : blocking_op B) s :
  bus_blocking op -> bounded s -> bounded (snd (op_enter op s)).
Proof.
  intros Hop Hb. destruct Hop; cbn [op_enter coro_bus_send coro_bus_recv
    coro_bus_send_v coro_bus_recv_v coro_bus_broadcast];
    auto using bounded_blocking_enter.
Qed.

Lemma loops_failure {B : Type} (op : blocking_op B) s b r s' b' :
  bus_blocking op ->
  loops (rtc step) op s b r s' b' ->
  bounded s -> r = -1 ->
  global_error s' = CORO_BUS_ERR_NO_CHANNEL.
Proof.
  intros Hop Hl. induction Hl as
    [s b r s' b' Hbody
    |s b s1 b1 r s' b' Hbody Hl IH
    |s b slot s1 b1 s2 s3 r s' b' Hbody Henv Hres Hl IH]; intros Hb ->.
  - eapply blocking_body_failure; eauto.
  - apply IH; [|reflexivity].
    pose proof (blocking_body_bounded op b s Hop Hb) as H.
    now rewrite Hbody in H.
  - apply IH; [|reflexivity].
    pose proof (blocking_body_bounded op b s Hop Hb) as H1.
    rewrite Hbody in H1. simpl in H1.
    pose proof (bounded_steps _ _ H1 Henv) as H2.
    pose proof (blocking_resume_bounded op slot s2 Hop H2) as H3.
    now rewrite Hres in H3.
Qed.

(** C7.  Whenever one of the five blocking operations, started in a
    reachable store and interleaved with any steps of the rest of the
    program while it is parked, returns -1, the error slot at that return is
    NO_CHANNEL. *)
Theorem blocking_failure_is_no_channel
    {B : Type} (op : blocking_op B) s b r s' b' :
  bus_blocking op ->
  reachable s ->
  returns (rtc step) op s b r s' b' ->
  r = -1 ->
  global_error s' = CORO_BUS_ERR_NO_CHANNEL.
Proof.
  intros Hop Hr Hret Hneg. apply reachable_bounded in Hr.
  destruct Hret as [s b r s' Henter|s b s1 r s' b' Henter Hl].
  - eapply blocking_enter_op; eauto.
  - eapply loops_failure; eauto.
    pose proof (blocking_enter_bounded op s Hop Hr) as H.
    now rewrite Henter in H.
Qed.

(** A sender parked on a full channel is woken by a close and gives up:
    the execution the theorem is about, on capacity 1. *)
Lemma blocking_failure_is_no_channel_witness :
  let s0 := snd (coro_bus_try_send 0 1%N
                   (snd (coro_bus_channel_open 1 coro_bus_new))) in
  let s1 := snd (coro_bus_send_body 7%nat 0 2%N s0) in
  let s2 := snd (coro_bus_channel_close_begin 0 s1) in
  let s3 := snd (resume_sender 7%nat 0%nat s2) in
  let s4 := snd (coro_bus_send_body 7%nat 0 2%N s3) in
  bus_blocking (coro_bus_send 7%nat 0 2%N) /\
  reachable s0 /\
  returns (rtc step) (coro_bus_send 7%nat 0 2%N) s0 tt (-1) s4 tt /\
  global_error s4 = CORO_BUS_ERR_NO_CHANNEL.
Proof.
  intros s0 s1 s2 s3 s4.
  assert (Hop : bus_blocking (coro_bus_send 7%nat 0 2%N)) by constructor.
  assert (Hr : reachable s0).
  { subst s0. reach_by (ActTrySend 0 1%N). reach_by (ActChannelOpen 1).
    apply rtc_refl. }
  assert (Hret : returns (rtc step) (coro_bus_send 7%nat 0 2%N) s0 tt (-1) s4 tt).
  { apply returns_loop with (s1 := s0); [reflexivity|].
    apply loops_suspend with (slot := 0%nat) (s1 := s1) (b1 := tt)
                             (s2 := s2) (s3 := s3); [reflexivity| |reflexivity|].
    - apply rtc_once. exists (ActCloseBegin 0), Yielded. split; reflexivity.
    - apply loops_return. reflexivity. }
  split; [exact Hop|]. split; [exact Hr|]. split; [exact Hret|].
  exact (blocking_failure_is_no_channel _ s0 tt (-1) s4 tt Hop Hr Hret eq_refl).
Defined.

(** ** C8: opening a channel *)

Lemma first_free_complete slots k i :
  slots !! i = Some None ->
  (forall j, (j < i)%nat -> occupied slots j) ->
  first_free slots k = Some (k + i)%nat.
Proof.
  revert k i. induction slots as [|slot rest IH]; intros k i Hl Hocc.
  - now rewrite lookup_nil in Hl.
  - destruct i as [|i].
    + simpl in Hl. injection Hl as ->. simpl. f_equal. lia.
    + destruct (Hocc 0%nat ltac:(lia)) as [ch Hch]. simpl in Hch.
      injection Hch as ->. simpl.
      rewrite (IH (S k) i Hl).
      * f_equal. lia.
      * intros j Hj. destruct (Hocc (S j) ltac:(lia)) as [ch' Hch'].
        now exists ch'.
Qed.

(** C8.  [coro_bus_channel_open] always returns a slot index [i], never -1,
    and leaves the error slot alone.  No slot below [i] is empty; either
    slot [i] was empty and now holds the new channel, or no slot at all was
    empty and [i] is the new last slot.  The new channel has the given
    capacity, no message, no waiter, and is not closed.  And if a channel is
    closed whose slot [i] has no empty slot below it, the next open returns
    [i]. *)
Theorem channel_open_lowest_free_slot limit s :
  (let (r, s') := coro_bus_channel_open limit s in
   exists i : nat,
     r = Z.of_nat i /\
     (forall j, (j < i)%nat -> occupied (channels s) j) /\
     ((channels s !! i = Some None /\
       channels s' = <[i := Some (mkChannel limit [] [] [] false)]> (channels s)) \/
      (i = length (channels s) /\
       (forall j, channels s !! j <> Some None) /\
       channels s' = channels s ++ [Some (mkChannel limit [] [] [] false)])) /\
     channels s' !! i = Some (Some (mkChannel limit [] [] [] false)) /\
     global_error s' = global_error s /\ trace s' = trace s) /\
  (forall (i : nat) ch,
     channels s !! i = Some (Some ch) ->
     (forall j, (j < i)%nat -> occupied (channels s) j) ->
     let s1 := snd (coro_bus_channel_close (Z.of_nat i) s) in
     channels s1 !! i = Some None /\
     fst (coro_bus_channel_open limit s1) = Z.of_nat i).
Proof.
  split.
  - rewrite channel_open_spec.
    destruct (first_free (channels s) 0) as [i|] eqn:Hff.
    + apply first_free_spec in Hff as (_ & Hl & Hocc).
      rewrite Nat.sub_0_r in Hl, Hocc.
      exists i. split; [reflexivity|]. split; [exact Hocc|].
      split; [left; split; [exact Hl|reflexivity]|].
      split; [|split; reflexivity].
      simpl. apply list_lookup_insert_eq. eapply lookup_lt_Some; eauto.
    + pose proof (first_free_none _ _ Hff) as Hnone.
      exists (length (channels s)). split; [reflexivity|]. split.
      * intros j Hj. destruct (channels s !! j) as [[ch|]|] eqn:Hl.
        -- now exists ch.
        -- now destruct (Hnone j).
        -- apply lookup_ge_None in Hl. lia.
      * split; [right; split; [reflexivity|split; [exact Hnone|reflexivity]]|].
        split; [|split; reflexivity].
        simpl. rewrite lookup_app_r by lia. now rewrite Nat.sub_diag.
  - intros i ch Hl Hocc s1.
    assert (Hf : find_channel (channels s) (Z.of_nat i) = Some ch)
      by now apply find_channel_slot.
    assert (Hs1 : channels s1 = <[i := None]> (channels s)).
    { subst s1. rewrite (channel_close_valid _ _ _ Hf). simpl.
      now rewrite Nat2Z.id. }
    assert (Hnone : channels s1 !! i = Some None).
    { rewrite Hs1. apply list_lookup_insert_eq. eapply lookup_lt_Some; eauto. }
    split; [exact Hnone|].
    rewrite channel_open_spec.
    rewrite (first_free_complete (channels s1) 0 i Hnone).
    + reflexivity.
    + intros j Hj. destruct (Hocc j Hj) as [ch' Hch']. exists ch'.
      rewrite Hs1, list_lookup_insert_ne by lia. exact Hch'.
Qed.

(** Scenario 7 of the specification: A and B are open at 0 and 1, A is
    closed, the next open returns 0. *)
Lemma channel_open_lowest_free_slot_witness :
  let s := snd (coro_bus_channel_open 1
                  (snd (coro_bus_channel_open 1 coro_bus_new))) in
  channels s !! 0%nat = Some (Some (mkChannel 1 [] [] [] false)) /\
  fst (coro_bus_channel_open 1 (snd (coro_bus_channel_close 0 s))) = 0.
Proof.
  intros s. split; [reflexivity|].
  refine (proj2 (proj2 (channel_open_lowest_free_slot 1 s) 0%nat
                   (mkChannel 1 [] [] [] false) eq_refl _)).
  intros j Hj. exfalso. exact (Nat.nlt_0_r j Hj).
Defined.

(** ** C9: the error slot *)


Create HintDb silent.
#[local] Hint Resolve silent_wakeup_first silent_wakeup_all
  silent_wakeup_sender_if_room silent_wakeup_receiver_if_data
  silent_broadcast_wakeup_senders silent_ret silent_emit : silent.

































(** ** C10: a channel of capacity 0 *)

Lemma channel_open_finds_new limit s :
  let (r, s') := coro_bus_channel_open limit s in
  0 <= r /\ find_channel (channels s') r = Some (mkChannel limit [] [] [] false).
Proof.
  rewrite channel_open_spec.
  destruct (first_free (channels s) 0) as [i|] eqn:Hff.
  - apply first_free_spec in Hff as (_ & Hl & _). rewrite Nat.sub_0_r in Hl.
    split; [lia|]. apply find_channel_slot. simpl.
    apply list_lookup_insert_eq. eapply lookup_lt_Some; eauto.
  - split; [lia|]. apply find_channel_slot. simpl.
    rewrite lookup_app_r by lia. now rewrite Nat.sub_diag.
Qed.

(** C10.  From any reachable store, opening with capacity 0 succeeds and
    gives a reachable store with an open, empty channel of capacity 0 at the
    returned index; and in any reachable store a channel of capacity 0 has
    an empty queue, every [try_send] on it fails with WOULD_BLOCK and every
    [try_recv] on it fails with WOULD_BLOCK, neither changing anything but
    the error slot. *)
Theorem zero_capacity_channel_passes_nothing s :
  reachable s ->
  (let (r, s') := coro_bus_channel_open 0 s in
   0 <= r /\ reachable s' /\
   find_channel (channels s') r = Some (mkChannel 0 [] [] [] false)) /\
  (forall channel ch d out,
     find_channel (channels s) channel = Some ch ->
     size_limit ch = 0%nat ->
     data ch = [] /\
     coro_bus_try_send channel d s =
       (-1, set_error CORO_BUS_ERR_WOULD_BLOCK s) /\
     coro_bus_try_recv channel out s =
       ((-1, out), set_error CORO_BUS_ERR_WOULD_BLOCK s)).
Proof.
  intros Hr. split.
  - pose proof (channel_open_finds_new 0 s) as Hopen.
    assert (Hr' : reachable (snd (coro_bus_channel_open 0 s))).
    { apply (reachable_perform (ActChannelOpen 0) s _ Hr).
      - cbn [perform]. apply snd_returning.
      - cbn [perform]. now rewrite fst_returning. }
    destruct (coro_bus_channel_open 0 s) as [r s'].
    destruct Hopen as [Hpos Hfind]. auto.
  - intros channel ch d out Hf Hzero.
    assert (Hd : data ch = []).
    { pose proof (bounded_find _ _ _ (reachable_bounded _ Hr) Hf) as Hle.
      destruct (data ch); [reflexivity|]. simpl in Hle. lia. }
    split; [exact Hd|]. split.
    + apply (try_send_valid_full _ _ _ _ Hf). now rewrite Hd, Hzero.
    + now apply (try_recv_valid_empty _ _ _ _ Hf).
Qed.

Lemma zero_capacity_channel_passes_nothing_witness :
  let s := snd (coro_bus_channel_open 0 coro_bus_new) in
  reachable s /\
  find_channel (channels s) 0 = Some (mkChannel 0 [] [] [] false) /\
  coro_bus_try_send 0 5%N s = (-1, set_error CORO_BUS_ERR_WOULD_BLOCK s) /\
  coro_bus_try_recv 0 9%N s = ((-1, 9%N), set_error CORO_BUS_ERR_WOULD_BLOCK s).
Proof.
  intros s.
  assert (Hr : reachable s).
  { subst s. reach_by (ActChannelOpen 0). apply rtc_refl. }
  split; [exact Hr|]. split; [reflexivity|].
  exact (proj2 (proj2 (zero_capacity_channel_passes_nothing s Hr) 0
                  (mkChannel 0 [] [] [] false) 5%N 9%N eq_refl eq_refl)).
Defined.

(** * Further properties of the bus *)

(** ** Invalid ids *)

Lemma find_channel_None chs channel :
  find_channel chs channel = None <->
  channel < 0 \/ Z.of_nat (length chs) <= channel \/
  chs !! Z.to_nat channel = Some None.
Proof.
  unfold find_channel. split.
  - destruct (channel <? 0) eqn:Hneg; [apply Z.ltb_lt in Hneg; auto|].
    destruct (Z.of_nat (length chs) <=? channel) eqn:Hge;
      [apply Z.leb_le in Hge; auto|].
    simpl. apply Z.ltb_ge in Hneg. apply Z.leb_gt in Hge.
    destruct (chs !! Z.to_nat channel) as [[ch|]|] eqn:Hl; [discriminate|auto|].
    apply lookup_ge_None in Hl. lia.
  - intros [Hneg|[Hge|Hl]].
    + apply Z.ltb_lt in Hneg. now rewrite Hneg.
    + apply Z.leb_le in Hge. rewrite Hge. now rewrite orb_true_r.
    + rewrite Hl. now destruct (_ || _).
Qed.

Lemma returns_invalid_id {B : Type} env (op : blocking_op B) channel
    s b r s' b' :
  op_enter op = blocking_enter channel ->
  find_channel (channels s) channel = None ->
  returns env op s b r s' b' <->
  r = -1 /\ s' = set_error CORO_BUS_ERR_NO_CHANNEL s /\ b' = b.
Proof.
  intros Henter Hf.
  assert (He : op_enter op s = (Returned (-1), set_error CORO_BUS_ERR_NO_CHANNEL s))
    by (rewrite Henter, blocking_enter_spec; now rewrite Hf).
  split.
  - intros Hret. destruct Hret as [s b r s' H|s b s1 r s' b' H _];
      rewrite He in H; [|discriminate].
    injection H as <- <-. auto.
  - intros (-> & -> & ->). now apply returns_early.
Qed.

(** X1.  An id that is negative, past the end of the vector, or that names an
    empty slot is refused by every operation that takes an id: the
    non-blocking ones and the blocking ones return -1 with NO_CHANNEL at
    once and change nothing else (a blocking one never waits), and a close
    does nothing at all. *)
Theorem invalid_id_is_refused s channel :
  channel < 0 \/ Z.of_nat (length (channels s)) <= channel \/
    channels s !! Z.to_nat channel = Some None ->
  let failed := set_error CORO_BUS_ERR_NO_CHANNEL s in
  (forall d, coro_bus_try_send channel d s = (-1, failed)) /\
  (forall out, coro_bus_try_recv channel out s = ((-1, out), failed)) /\
  (forall buf, coro_bus_try_send_v channel buf s = (-1, failed)) /\
  (forall out capacity,
     coro_bus_try_recv_v channel out capacity s = ((-1, out), failed)) /\
  coro_bus_channel_close channel s = (ReturnedVoid, s) /\
  (forall env self d r s',
     returns env (coro_bus_send self channel d) s tt r s' tt <->
     r = -1 /\ s' = failed) /\
  (forall env self out r s' out',
     returns env (coro_bus_recv self channel) s out r s' out' <->
     r = -1 /\ s' = failed /\ out' = out) /\
  (forall env self buf r s',
     returns env (coro_bus_send_v self channel buf) s tt r s' tt <->
     r = -1 /\ s' = failed) /\
  (forall env self capacity out r s' out',
     returns env (coro_bus_recv_v self channel capacity) s out r s' out' <->
     r = -1 /\ s' = failed /\ out' = out).
Proof.
  intros Hbad failed. apply find_channel_None in Hbad.
  split; [intros; now apply try_send_invalid|].
  split; [intros; now apply try_recv_invalid|].
  split; [intros; now apply try_send_v_invalid|].
  split; [intros; now apply try_recv_v_invalid|].
  split; [now apply channel_close_invalid|].
  split; [|split; [|split]]; intros.
  - rewrite (returns_invalid_id env _ channel) by easy. tauto.
  - now rewrite (returns_invalid_id env _ channel).
  - rewrite (returns_invalid_id env _ channel) by easy. tauto.
  - now rewrite (returns_invalid_id env _ channel).
Qed.

Lemma invalid_id_is_refused_witness :
  let s := snd (coro_bus_channel_open 2 coro_bus_new) in
  coro_bus_try_send 5 1%N s = (-1, set_error CORO_BUS_ERR_NO_CHANNEL s) /\
  coro_bus_channel_close 5 s = (ReturnedVoid, s).
Proof.
  intros s.
  assert (Hbad : 5 < 0 \/ Z.of_nat (length (channels s)) <= 5 \/
                 channels s !! Z.to_nat 5 = Some None)
    by (right; left; vm_compute; discriminate).
  pose proof (invalid_id_is_refused s 5 Hbad) as (H1 & _ & _ & _ & H5 & _).
  split; [exact (H1 1%N)|exact H5].
Defined.

(** ** What the non-blocking operations leave alone *)

Lemma channels_silent {A : Type} (m : M A) s :
  silent m -> channels (snd (m s)) = channels s.
Proof. intros Hm. apply Hm. Qed.

Lemma same_frame_refl l : Forall2 same_frame l l.
Proof.
  induction l as [|[ch|] rest IH]; constructor; simpl; auto.
Qed.

Lemma same_frame_insert l (i : nat) ch q :
  l !! i = Some (Some ch) ->
  Forall2 same_frame l (<[i := Some (with_data ch q)]> l).
Proof.
  intros Hl. rewrite <- (list_insert_id l i (Some ch) Hl) at 1.
  apply Forall2_insert; [apply same_frame_refl|]. simpl. auto.
Qed.

Lemma same_frame_deliver d l : Forall2 same_frame l (map (deliver_slot d) l).
Proof.
  induction l as [|[ch|] rest IH]; simpl; constructor; auto.
  - simpl. destruct (is_closed ch) eqn:Hc; simpl; auto.
  - exact I.
Qed.

Lemma find_channel_lookup chs channel ch :
  find_channel chs channel = Some ch -> chs !! Z.to_nat channel = Some (Some ch).
Proof. intros H. now apply find_channel_Some in H. Qed.

Lemma frame_try_send channel d s :
  Forall2 same_frame (channels s) (channels (snd (coro_bus_try_send channel d s))).
Proof.
  destruct (find_channel (channels s) channel) as [ch|] eqn:Hf.
  - destruct (Nat.eq_dec (size_limit ch) (length (data ch))) as [He|Hne].
    + rewrite (try_send_valid_full _ _ _ _ Hf He). apply same_frame_refl.
    + rewrite (try_send_valid_not_full _ _ _ _ Hf Hne). cbn [snd].
      rewrite channels_silent by apply silent_wakeup_first. cbn [channels].
      apply same_frame_insert, find_channel_lookup, Hf.
  - rewrite (try_send_invalid _ _ _ Hf). apply same_frame_refl.
Qed.

Lemma frame_try_recv channel out s :
  Forall2 same_frame (channels s) (channels (snd (coro_bus_try_recv channel out s))).
Proof.
  destruct (find_channel (channels s) channel) as [ch|] eqn:Hf.
  - destruct (data ch) as [|front rest] eqn:Hd.
    + rewrite (try_recv_valid_empty _ _ _ _ Hf Hd). apply same_frame_refl.
    + rewrite (try_recv_valid_nonempty _ _ _ _ _ _ Hf Hd). cbn [snd].
      rewrite channels_silent by apply silent_wakeup_first. cbn [channels].
      apply same_frame_insert, find_channel_lookup, Hf.
  - rewrite (try_recv_invalid _ _ _ Hf). apply same_frame_refl.
Qed.

Lemma frame_try_broadcast d s :
  Forall2 same_frame (channels s) (channels (snd (coro_bus_try_broadcast d s))).
Proof.
  rewrite try_broadcast_spec.
  destruct (existsb live_and_full (channels s)); [apply same_frame_refl|].
  destruct (existsb live (channels s)); [|apply same_frame_refl].
  apply same_frame_deliver.
Qed.

Lemma frame_try_send_v channel buf s :
  Forall2 same_frame (channels s)
    (channels (snd (coro_bus_try_send_v channel buf s))).
Proof.
  destruct (find_channel (channels s) channel) as [ch|] eqn:Hf.
  - destruct (Nat.eq_dec (size_limit ch) (length (data ch))) as [He|Hne].
    + rewrite (try_send_v_valid_full _ _ _ _ Hf He). apply same_frame_refl.
    + rewrite (try_send_v_valid_not_full _ _ _ _ Hf Hne). cbn [snd].
      rewrite channels_silent by apply silent_wakeup_first. cbn [channels].
      apply same_frame_insert, find_channel_lookup, Hf.
  - rewrite (try_send_v_invalid _ _ _ Hf). apply same_frame_refl.
Qed.

Lemma frame_try_recv_v channel out capacity s :
  Forall2 same_frame (channels s)
    (channels (snd (coro_bus_try_recv_v channel out capacity s))).
Proof.
  destruct (find_channel (channels s) channel) as [ch|] eqn:Hf.
  - assert (Hd : data ch = [] \/ data ch <> [])
      by (destruct (data ch); [left|right]; congruence).
    destruct Hd as [Hd|Hd].
    + rewrite (try_recv_v_valid_empty _ _ _ _ _ Hf Hd). apply same_frame_refl.
    + rewrite (try_recv_v_valid_nonempty_eq _ _ _ _ _ Hf Hd). cbn [snd].
      rewrite channels_silent by apply silent_wakeup_first. cbn [channels].
      apply same_frame_insert, find_channel_lookup, Hf.
  - rewrite (try_recv_v_invalid _ _ _ _ Hf). apply same_frame_refl.
Qed.

(** X2.  A non-blocking send, receive or broadcast, single or vectorized,
    changes nothing of the bus but message queues (and, on failure, the
    error slot): the number of slots, which slots are empty, and the
    capacity, both waiter lists and the closed flag of every channel are
    as before. *)
Theorem try_operations_touch_only_queues a s :
  is_try a = true ->
  Forall2 same_frame (channels s) (channels (snd (perform a s))).
Proof.
  intros Ha. destruct a; try discriminate Ha; clear Ha;
    cbn [perform]; rewrite snd_returning.
  - apply frame_try_send.
  - apply frame_try_recv.
  - apply frame_try_broadcast.
  - apply frame_try_send_v.
  - apply frame_try_recv_v.
Qed.

Lemma try_operations_touch_only_queues_witness :
  let s := snd (coro_bus_send_body 7%nat 0 2%N
             (snd (coro_bus_try_send 0 1%N
               (snd (coro_bus_channel_open 1 coro_bus_new))))) in
  Forall2 same_frame (channels s)
    (channels (snd (perform (ActTryRecv 0 0%N) s))).
Proof.
  intros s.
  exact (try_operations_touch_only_queues (ActTryRecv 0 0%N) s eq_refl).
Defined.

(** ** Slots over one action *)

Lemma channel_evolves_refl ch : channel_evolves ch ch.
Proof. split; auto. Qed.

Lemma slots_kept_refl l : slots_kept l l.
Proof.
  split; [lia|]. intros i ch Hl. exists ch. auto using channel_evolves_refl.
Qed.

Lemma slots_kept_trans l1 l2 l3 :
  slots_kept l1 l2 -> slots_kept l2 l3 -> slots_kept l1 l3.
Proof.
  intros [Hlen1 H1] [Hlen2 H2]. split; [lia|].
  intros i ch Hl. destruct (H1 i ch Hl) as (ch2 & Hl2 & Hc1 & Hk1).
  destruct (H2 i ch2 Hl2) as (ch3 & Hl3 & Hc2 & Hk2).
  exists ch3. split; [exact Hl3|]. split; [congruence|auto].
Qed.

Lemma slots_kept_insert l (i : nat) ch ch' :
  l !! i = Some (Some ch) -> channel_evolves ch ch' ->
  slots_kept l (<[i := Some ch']> l).
Proof.
  intros Hl He. split; [rewrite length_insert; lia|].
  intros j c Hj. destruct (Nat.eq_dec i j) as [<-|Hne].
  - exists ch'. rewrite list_lookup_insert_eq by (eapply lookup_lt_Some; eauto).
    split; [reflexivity|]. congruence.
  - exists c. rewrite list_lookup_insert_ne by exact Hne.
    auto using channel_evolves_refl.
Qed.

Lemma slots_kept_fill l (i : nat) slot :
  l !! i = Some None -> slots_kept l (<[i := slot]> l).
Proof.
  intros Hl. split; [rewrite length_insert; lia|].
  intros j c Hj. exists c. split; [|apply channel_evolves_refl].
  rewrite list_lookup_insert_ne; [exact Hj|]. intros ->. congruence.
Qed.

Lemma slots_kept_app l tail : slots_kept l (l ++ tail).
Proof.
  split; [rewrite length_app; lia|].
  intros i c Hi. exists c. split; [|apply channel_evolves_refl].
  now apply lookup_app_l_Some.
Qed.

Lemma slots_kept_same_frame l l' : Forall2 same_frame l l' -> slots_kept l l'.
Proof.
  intros HF. split; [now rewrite (Forall2_length _ _ _ HF)|].
  intros i ch Hl.
  destruct (Forall2_lookup_l _ _ _ _ _ HF Hl) as (slot' & Hl' & Hsame).
  destruct slot' as [ch'|]; [|contradiction].
  exists ch'. split; [exact Hl'|].
  destruct Hsame as (Hcap & _ & _ & Hclosed). split; [exact Hcap|congruence].
Qed.

Lemma slots_kept_park_sender self channel s :
  slots_kept (channels s) (channels (snd (park_sender self channel s))).
Proof.
  rewrite park_sender_spec.
  destruct (find_channel (channels s) channel) as [ch|] eqn:Hf;
    [|apply slots_kept_refl].
  cbn [snd channels]. eapply slots_kept_insert; [eapply find_channel_lookup, Hf|].
  split; auto.
Qed.

Lemma slots_kept_park_receiver self channel s :
  slots_kept (channels s) (channels (snd (park_receiver self channel s))).
Proof.
  rewrite park_receiver_spec.
  destruct (find_channel (channels s) channel) as [ch|] eqn:Hf;
    [|apply slots_kept_refl].
  cbn [snd channels]. eapply slots_kept_insert; [eapply find_channel_lookup, Hf|].
  split; auto.
Qed.

Lemma slots_kept_send_body self channel d s :
  slots_kept (channels s) (channels (snd (coro_bus_send_body self channel d s))).
Proof.
  rewrite send_body_cases.
  destruct (find_channel (channels s) channel) as [ch|]; [|apply slots_kept_refl].
  destruct (is_closed ch); [apply slots_kept_refl|].
  destruct (Nat.eqb _ _).
  - apply (slots_kept_park_sender self channel (set_error CORO_BUS_ERR_WOULD_BLOCK s)).
  - cbn [snd]. rewrite channels_silent by apply silent_wakeup_sender_if_room.
    apply slots_kept_same_frame, frame_try_send.
Qed.

Lemma slots_kept_recv_body self channel out s :
  slots_kept (channels s) (channels (snd (coro_bus_recv_body self channel out s))).
Proof.
  rewrite recv_body_cases.
  destruct (find_channel (channels s) channel) as [ch|]; [|apply slots_kept_refl].
  destruct (is_closed ch); [apply slots_kept_refl|].
  destruct (data ch).
  - pose proof (slots_kept_park_receiver self channel
                  (set_error CORO_BUS_ERR_WOULD_BLOCK s)) as Hp.
    now destruct (park_receiver _ _ _).
  - cbn [snd]. rewrite channels_silent by apply silent_wakeup_receiver_if_data.
    apply slots_kept_same_frame, frame_try_recv.
Qed.

Lemma slots_kept_send_v_body self channel buf s :
  slots_kept (channels s) (channels (snd (coro_bus_send_v_body self channel buf s))).
Proof.
  rewrite send_v_body_cases.
  destruct (find_channel (channels s) channel) as [ch|]; [|apply slots_kept_refl].
  destruct (is_closed ch); [apply slots_kept_refl|].
  destruct (Nat.eqb _ _).
  - apply (slots_kept_park_sender self channel (set_error CORO_BUS_ERR_WOULD_BLOCK s)).
  - cbn [snd]. rewrite channels_silent by apply silent_wakeup_sender_if_room.
    apply slots_kept_same_frame, frame_try_send_v.
Qed.

Lemma slots_kept_recv_v_body self channel capacity out s :
  slots_kept (channels s)
    (channels (snd (coro_bus_recv_v_body self channel capacity out s))).
Proof.
  rewrite recv_v_body_cases.
  destruct (find_channel (channels s) channel) as [ch|]; [|apply slots_kept_refl].
  destruct (is_closed ch); [apply slots_kept_refl|].
  destruct (data ch).
  - pose proof (slots_kept_park_receiver self channel
                  (set_error CORO_BUS_ERR_WOULD_BLOCK s)) as Hp.
    now destruct (park_receiver _ _ _).
  - cbn [snd]. rewrite channels_silent by apply silent_wakeup_receiver_if_data.
    apply slots_kept_same_frame, frame_try_recv_v.
Qed.

Lemma slots_kept_broadcast_body self d s :
  slots_kept (channels s) (channels (snd (coro_bus_broadcast_body self d s))).
Proof.
  rewrite broadcast_body_cases.
  destruct (existsb live_and_full (channels s)).
  - destruct (find_blocking (channels s) 0); [|apply slots_kept_refl].
    apply (slots_kept_park_sender self _ (set_error CORO_BUS_ERR_WOULD_BLOCK s)).
  - destruct (existsb live (channels s)); [|apply slots_kept_refl].
    cbn [snd]. rewrite channels_silent by apply silent_broadcast_wakeup_senders.
    apply slots_kept_same_frame, frame_try_broadcast.
Qed.

Lemma slots_kept_channel_open limit s :
  slots_kept (channels s) (channels (snd (coro_bus_channel_open limit s))).
Proof.
  rewrite channel_open_spec.
  destruct (first_free (channels s) 0) as [i|] eqn:Hff; cbn [snd channels].
  - apply first_free_spec in Hff as (_ & Hl & _). rewrite Nat.sub_0_r in Hl.
    now apply slots_kept_fill.
  - apply slots_kept_app.
Qed.

Lemma slots_kept_close_begin channel s :
  slots_kept (channels s) (channels (snd (coro_bus_channel_close_begin channel s))).
Proof.
  destruct (find_channel (channels s) channel) as [ch|] eqn:Hf.
  - rewrite (close_begin_valid _ _ _ Hf). cbn [snd channels].
    eapply slots_kept_insert; [eapply find_channel_lookup, Hf|]. split; auto.
  - rewrite (close_begin_invalid _ _ Hf). apply slots_kept_refl.
Qed.

Lemma slots_kept_resume_sender self slot s :
  slots_kept (channels s) (channels (snd (resume_sender self slot s))).
Proof.
  rewrite resume_sender_spec.
  destruct (channels s !! slot) as [[ch|]|] eqn:Hl; try apply slots_kept_refl.
  cbn [snd channels]. eapply slots_kept_insert; [exact Hl|]. split; auto.
Qed.

Lemma slots_kept_resume_receiver self slot s :
  slots_kept (channels s) (channels (snd (resume_receiver self slot s))).
Proof.
  rewrite resume_receiver_spec.
  destruct (channels s !! slot) as [[ch|]|] eqn:Hl; try apply slots_kept_refl.
  cbn [snd channels]. eapply slots_kept_insert; [exact Hl|]. split; auto.
Qed.

(** X3.  Over any one action the vector of slots does not shrink, and a channel
    either is still in its slot, with the capacity it had and still marked
    closed if it was, or has just been deleted by the second half of a close
    of that very slot.  So a capacity never changes, the closed flag is
    never reset, and only a close takes a channel out of its slot. *)
Theorem channels_are_stable a s :
  (length (channels s) <= length (channels (snd (perform a s))))%nat /\
  forall (i : nat) ch,
    channels s !! i = Some (Some ch) ->
    (exists ch',
       channels (snd (perform a s)) !! i = Some (Some ch') /\
       size_limit ch' = size_limit ch /\
       (is_closed ch = true -> is_closed ch' = true)) \/
    (a = ActCloseFinish (Z.of_nat i) /\
     channels (snd (perform a s)) !! i = Some None).
Proof.
  assert (Hkept : forall l', slots_kept (channels s) l' ->
    (length (channels s) <= length l')%nat /\
    forall (i : nat) ch,
      channels s !! i = Some (Some ch) ->
      (exists ch', l' !! i = Some (Some ch') /\
         size_limit ch' = size_limit ch /\
         (is_closed ch = true -> is_closed ch' = true)) \/
      (a = ActCloseFinish (Z.of_nat i) /\ l' !! i = Some None)).
  { intros l' [Hlen Hk]. split; [exact Hlen|]. intros i ch Hl. left.
    destruct (Hk i ch Hl) as (ch' & Hl' & Hcap & Hc). eauto. }
  destruct a; cbn [perform]; rewrite ?snd_returning.
  - apply Hkept, slots_kept_refl.
  - apply Hkept, slots_kept_channel_open.
  - apply Hkept, slots_kept_close_begin.
  - clear Hkept.
    destruct (find_channel (channels s) channel) as [c|] eqn:Hf.
    + rewrite (close_finish_valid _ _ _ Hf). cbn [snd channels].
      apply find_channel_Some in Hf as [Hpos Hc].
      split; [rewrite length_insert; lia|]. intros i ch Hl.
      destruct (Nat.eq_dec (Z.to_nat channel) i) as [<-|Hne].
      * right. rewrite Z2Nat.id by exact Hpos. split; [reflexivity|].
        apply list_lookup_insert_eq. eapply lookup_lt_Some; eauto.
      * left. exists ch. rewrite list_lookup_insert_ne by exact Hne. auto.
    + rewrite (close_finish_invalid _ _ Hf). cbn [snd].
      split; [lia|]. intros i ch Hl. left. exists ch. auto.
  - apply Hkept, slots_kept_same_frame, frame_try_send.
  - apply Hkept, slots_kept_same_frame, frame_try_recv.
  - apply Hkept, slots_kept_same_frame, frame_try_broadcast.
  - apply Hkept, slots_kept_same_frame, frame_try_send_v.
  - apply Hkept, slots_kept_same_frame, frame_try_recv_v.
  - apply Hkept. rewrite blocking_enter_spec.
    destruct (find_channel (channels s) channel); apply slots_kept_refl.
  - apply Hkept, slots_kept_send_body.
  - apply Hkept, slots_kept_recv_body.
  - apply Hkept, slots_kept_send_v_body.
  - apply Hkept, slots_kept_recv_v_body.
  - apply Hkept, slots_kept_broadcast_body.
  - apply Hkept, slots_kept_resume_sender.
  - apply Hkept, slots_kept_resume_receiver.
Qed.

Lemma channels_are_stable_witness :
  let s := snd (coro_bus_channel_open 3 coro_bus_new) in
  exists ch',
    channels (snd (perform (ActCloseBegin 0) s)) !! 0%nat = Some (Some ch') /\
    size_limit ch' = 3%nat.
Proof.
  intros s.
  destruct (proj2 (channels_are_stable (ActCloseBegin 0) s) 0%nat
              (mkChannel 3 [] [] [] false) eq_refl)
    as [(ch' & Hl & Hcap & _)|[Hbad _]].
  - exists ch'. split; [exact Hl|exact Hcap].
  - discriminate Hbad.
Defined.

(** ** Messages in order *)

Lemma with_data_id ch : with_data ch (data ch) = ch.
Proof. now destruct ch. Qed.


Lemma wakeup_first_spec q s :
  wakeup_first q s =
    (tt, mkStore (channels s) (global_error s) (trace s ++ wake_head q)).
Proof.
  destruct q; simpl; [|reflexivity].
  unfold ret. rewrite app_nil_r. now destruct s.
Qed.

Lemma try_send_each_spec channel vs : forall s ch,
  find_channel (channels s) channel = Some ch ->
  (length (data ch) + length vs <= size_limit ch)%nat ->
  fst (try_send_each channel vs s) = map (fun _ => 0) vs /\
  channels (snd (try_send_each channel vs s)) =
    <[Z.to_nat channel := Some (with_data ch (data ch ++ vs))]> (channels s) /\
  global_error (snd (try_send_each channel vs s)) = global_error s.
Proof.
  induction vs as [|v rest IH]; intros s ch Hf Hroom.
  - simpl. rewrite app_nil_r, with_data_id.
    rewrite list_insert_id by (eapply find_channel_lookup; eauto). auto.
  - simpl in Hroom.
    set (s1 := mkStore
                 (<[Z.to_nat channel := Some (with_data ch (data ch ++ [v]))]>
                    (channels s))
                 (global_error s) (trace s ++ wake_head (recv_queue ch))).
    assert (Heq : try_send_each channel (v :: rest) s =
                  (0 :: fst (try_send_each channel rest s1),
                   snd (try_send_each channel rest s1))).
    { cbn [try_send_each]. unfold bind, ret.
      rewrite (try_send_valid_not_full _ _ _ v Hf) by lia.
      rewrite wakeup_first_spec. cbn [snd channels global_error trace].
      fold s1. now destruct (try_send_each channel rest s1). }
    rewrite Heq. cbn [fst snd].
    assert (Hf1 : find_channel (channels s1) channel =
                  Some (with_data ch (data ch ++ [v])))
      by (eapply find_channel_insert; eauto).
    destruct (IH s1 _ Hf1) as (H1 & H2 & H3).
    { simpl. rewrite length_app. simpl. lia. }
    split; [simpl; now rewrite H1|]. split; [|exact H3].
    rewrite H2. unfold s1. cbn [channels data with_data].
    rewrite list_insert_insert_eq. now rewrite <- app_assoc.
Qed.

Lemma try_recv_each_spec channel n : forall s ch out,
  find_channel (channels s) channel = Some ch ->
  (n <= length (data ch))%nat ->
  fst (try_recv_each channel n out s) =
    map (fun v => (0, v)) (take n (data ch)) /\
  channels (snd (try_recv_each channel n out s)) =
    <[Z.to_nat channel := Some (with_data ch (drop n (data ch)))]> (channels s) /\
  global_error (snd (try_recv_each channel n out s)) = global_error s.
Proof.
  induction n as [|n IH]; intros s ch out Hf Hn.
  - simpl. rewrite with_data_id.
    rewrite list_insert_id by (eapply find_channel_lookup; eauto). auto.
  - destruct (data ch) as [|front rest] eqn:Hd; [simpl in Hn; lia|].
    set (s1 := mkStore
                 (<[Z.to_nat channel := Some (with_data ch rest)]> (channels s))
                 (global_error s) (trace s ++ wake_head (send_queue ch))).
    assert (Heq : try_recv_each channel (S n) out s =
                  ((0, front) :: fst (try_recv_each channel n front s1),
                   snd (try_recv_each channel n front s1))).
    { cbn [try_recv_each]. unfold bind, ret.
      rewrite (try_recv_valid_nonempty _ _ _ out _ _ Hf Hd).
      rewrite wakeup_first_spec. cbn [snd channels global_error trace].
      fold s1. now destruct (try_recv_each channel n front s1). }
    rewrite Heq. cbn [fst snd].
    assert (Hf1 : find_channel (channels s1) channel = Some (with_data ch rest))
      by (eapply find_channel_insert; eauto).
    destruct (IH s1 _ front Hf1) as (H1 & H2 & H3).
    { simpl in *. lia. }
    split; [simpl; now rewrite H1|]. split; [|exact H3].
    rewrite H2. unfold s1. cbn [channels data with_data].
    now rewrite list_insert_insert_eq.
Qed.

(** X4.  FIFO.  On any channel with room for all of [vs], a caller that sends the
    values of [vs] one by one and then receives [n] times, [n] at most the
    number of messages then queued, sees every call succeed and receives the
    messages that were already queued followed by [vs], in that order; what
    it did not receive stays queued, and nothing else of the bus changes. *)
Theorem messages_leave_in_arrival_order s channel ch vs n out :
  find_channel (channels s) channel = Some ch ->
  (length (data ch) + length vs <= size_limit ch)%nat ->
  (n <= length (data ch) + length vs)%nat ->
  let (sent, s1) := try_send_each channel vs s in
  let (received, s2) := try_recv_each channel n out s1 in
  sent = map (fun _ => 0) vs /\
  received = map (fun v => (0, v)) (take n (data ch ++ vs)) /\
  channels s2 =
    <[Z.to_nat channel := Some (with_data ch (drop n (data ch ++ vs)))]>
      (channels s) /\
  global_error s2 = global_error s.
Proof.
  intros Hf Hroom Hn.
  destruct (try_send_each_spec channel vs s ch Hf Hroom) as (H1 & H2 & H3).
  destruct (try_send_each channel vs s) as [sent s1]. simpl in H1, H2, H3.
  assert (Hf1 : find_channel (channels s1) channel =
                Some (with_data ch (data ch ++ vs)))
    by (rewrite H2; eapply find_channel_insert; eauto).
  destruct (try_recv_each_spec channel n s1 _ out Hf1) as (H4 & H5 & H6).
  { simpl. rewrite length_app. lia. }
  destruct (try_recv_each channel n out s1) as [received s2].
  simpl in H4, H5, H6.
  split; [exact H1|]. split; [exact H4|]. split; [|congruence].
  rewrite H5, H2. now rewrite list_insert_insert_eq.
Qed.

Lemma messages_leave_in_arrival_order_witness :
  let s := snd (coro_bus_try_send 0 5%N
                  (snd (coro_bus_channel_open 3 coro_bus_new))) in
  let (sent, s1) := try_send_each 0 [6; 7]%N s in
  let (received, s2) := try_recv_each 0 3 0%N s1 in
  sent = [0; 0] /\ received = [(0, 5%N); (0, 6%N); (0, 7%N)] /\
  channels s2 = channels (snd (coro_bus_channel_open 3 coro_bus_new)) /\
  global_error s2 = global_error s.
Proof.
  intros s.
  pose proof (messages_leave_in_arrival_order s 0 (mkChannel 3 [] [] [5%N] false)
                [6; 7]%N 3 0%N eq_refl) as H.
  specialize (H ltac:(simpl; lia) ltac:(simpl; lia)).
  exact H.
Defined.

(** ** The vectorized receive *)







(** X7.  A batch of length 0 is not an error in itself: on a channel that is
    not full [coro_bus_try_send_v] with no value returns 0 and on a channel
    that holds messages [coro_bus_try_recv_v] with capacity 0 returns 0,
    neither moving a message nor touching the error slot; but the checks
    for a full or an empty channel come first, so the same calls fail with
    WOULD_BLOCK on a full, respectively an empty, channel. *)
Theorem empty_batch_moves_nothing s channel ch out :
  find_channel (channels s) channel = Some ch ->
  (if Nat.eqb (size_limit ch) (length (data ch)) then
     coro_bus_try_send_v channel [] s =
       (-1, set_error CORO_BUS_ERR_WOULD_BLOCK s)
   else
     fst (coro_bus_try_send_v channel [] s) = 0 /\
     channels (snd (coro_bus_try_send_v channel [] s)) = channels s /\
     global_error (snd (coro_bus_try_send_v channel [] s)) = global_error s) /\
  (if Nat.eqb (length (data ch)) 0 then
     coro_bus_try_recv_v channel out 0 s =
       ((-1, out), set_error CORO_BUS_ERR_WOULD_BLOCK s)
   else
     fst (coro_bus_try_recv_v channel out 0 s) = (0, out) /\
     channels (snd (coro_bus_try_recv_v channel out 0 s)) = channels s /\
     global_error (snd (coro_bus_try_recv_v channel out 0 s)) = global_error s).
Proof.
  intros Hf. pose proof (find_channel_lookup _ _ _ Hf) as Hl. split.
  - destruct (Nat.eqb (size_limit ch) (length (data ch))) eqn:He.
    + apply Nat.eqb_eq in He. now apply try_send_v_valid_full with (ch := ch).
    + apply Nat.eqb_neq in He.
      rewrite (try_send_v_valid_not_full _ _ _ [] Hf He).
      rewrite wakeup_first_spec. cbn [fst snd channels global_error send_v_loop].
      rewrite with_data_id, list_insert_id by exact Hl. auto.
  - destruct (Nat.eqb (length (data ch)) 0) eqn:He.
    + apply Nat.eqb_eq in He. apply try_recv_v_valid_empty with (ch := ch); auto.
      now destruct (data ch).
    + apply Nat.eqb_neq in He.
      assert (Hne : data ch <> []) by (intros Hnil; now rewrite Hnil in He).
      rewrite (try_recv_v_valid_nonempty_eq _ _ _ out 0 Hf Hne).
      rewrite wakeup_first_spec.
      cbn [fst snd channels global_error recv_v_loop drop Nat.min].
      rewrite with_data_id, list_insert_id by exact Hl. auto.
Qed.

Lemma empty_batch_moves_nothing_witness :
  let s := snd (coro_bus_try_send 0 8%N
                  (snd (coro_bus_channel_open 2 coro_bus_new))) in
  fst (coro_bus_try_send_v 0 [] s) = 0 /\
  fst (coro_bus_try_recv_v 0 [7%N] 0 s) = (0, [7%N]).
Proof.
  intros s.
  destruct (empty_batch_moves_nothing s 0 (mkChannel 2 [] [] [8%N] false) [7%N]
              eq_refl) as [Hs Hr].
  split; [exact (proj1 Hs)|exact (proj1 Hr)].
Defined.

(** ** Blocking operations that do not wait *)

Lemma returns_at_once {B : Type} env (op : blocking_op B) s b r0 b0 s0 :
  op_enter op s = (Again, s) ->
  op_body op b s = ((Returned r0, b0), s0) ->
  forall r s' b',
    returns env op s b r s' b' <-> r = r0 /\ s' = s0 /\ b' = b0.
Proof.
  intros Henter Hbody r s' b'. split.
  - intros Hret. destruct Hret as [s b r s' H|s b s1 r s' b' H Hl].
    + rewrite Henter in H. discriminate.
    + rewrite Henter in H. injection H as <-.
      destruct Hl as [s b r s' b' H|s b s1 b1 r s' b' H _
                     |s b slot s1 b1 s2 s3 r s' b' H _ _ _];
        rewrite Hbody in H; try discriminate.
      injection H as <- <- <-. auto.
  - intros (-> & -> & ->).
    apply returns_loop with (s1 := s); [exact Henter|].
    now apply loops_return.
Qed.

Lemma enter_valid s channel ch :
  find_channel (channels s) channel = Some ch ->
  blocking_enter channel s = (Again, s).
Proof. intros Hf. rewrite blocking_enter_spec. now rewrite Hf. Qed.

Lemma no_out_value (m : M outcome) b s :
  no_out m b s = ((fst (m s), tt), snd (m s)).
Proof. unfold no_out, bind, ret. now destruct (m s). Qed.

(** X8.  On a channel marked closed every blocking operation returns -1 with
    NO_CHANNEL at once, without waiting and without touching the bus or the
    out-parameter, whatever the state of the queue: a blocking receive does
    not deliver the messages a closed channel still holds, and a blocking
    send does not use the room it still has. *)
Theorem blocking_on_closed_channel_fails s channel ch :
  find_channel (channels s) channel = Some ch ->
  is_closed ch = true ->
  let failed := set_error CORO_BUS_ERR_NO_CHANNEL s in
  (forall env self d r s',
     returns env (coro_bus_send self channel d) s tt r s' tt <->
     r = -1 /\ s' = failed) /\
  (forall env self out r s' out',
     returns env (coro_bus_recv self channel) s out r s' out' <->
     r = -1 /\ s' = failed /\ out' = out) /\
  (forall env self buf r s',
     returns env (coro_bus_send_v self channel buf) s tt r s' tt <->
     r = -1 /\ s' = failed) /\
  (forall env self capacity out r s' out',
     returns env (coro_bus_recv_v self channel capacity) s out r s' out' <->
     r = -1 /\ s' = failed /\ out' = out).
Proof.
  intros Hf Hc failed. pose proof (enter_valid _ _ _ Hf) as He.
  split; [|split; [|split]]; intros.
  - rewrite (returns_at_once env _ s tt (-1) tt failed); [tauto|exact He|].
    cbn [op_body coro_bus_send]. rewrite no_out_value, send_body_cases.
    now rewrite Hf, Hc.
  - rewrite (returns_at_once env _ s out (-1) out failed); [tauto|exact He|].
    cbn [op_body coro_bus_recv]. rewrite recv_body_cases. now rewrite Hf, Hc.
  - rewrite (returns_at_once env _ s tt (-1) tt failed); [tauto|exact He|].
    cbn [op_body coro_bus_send_v]. rewrite no_out_value, send_v_body_cases.
    now rewrite Hf, Hc.
  - rewrite (returns_at_once env _ s out (-1) out failed); [tauto|exact He|].
    cbn [op_body coro_bus_recv_v]. rewrite recv_v_body_cases. now rewrite Hf, Hc.
Qed.

Lemma blocking_on_closed_channel_fails_witness :
  let s := snd (coro_bus_channel_close_begin 0
             (snd (coro_bus_try_send 0 3%N
               (snd (coro_bus_channel_open 2 coro_bus_new))))) in
  returns (rtc step) (coro_bus_recv 1%nat 0) s 0%N (-1)
          (set_error CORO_BUS_ERR_NO_CHANNEL s) 0%N.
Proof.
  intros s.
  destruct (blocking_on_closed_channel_fails s 0 (mkChannel 2 [] [] [3%N] true)
              eq_refl eq_refl) as (_ & Hrecv & _).
  apply Hrecv. auto.
Defined.

Lemma wakeup_sender_if_room_spec ch s :
  wakeup_sender_if_room ch s =
    (tt, mkStore (channels s) (global_error s)
           (trace s ++ if (length (data ch) <? size_limit ch)%nat
                       then wake_head (send_queue ch) else [])).
Proof.
  unfold wakeup_sender_if_room.
  destruct (send_queue ch) as [|c q]; simpl.
  - unfold ret. destruct (_ <? _)%nat; rewrite app_nil_r; now destruct s.
  - destruct (_ <? _)%nat; simpl; [reflexivity|].
    unfold ret. rewrite app_nil_r. now destruct s.
Qed.

Lemma wakeup_receiver_if_data_spec ch s :
  wakeup_receiver_if_data ch s =
    (tt, mkStore (channels s) (global_error s)
           (trace s ++ if (0 <? length (data ch))%nat
                       then wake_head (recv_queue ch) else [])).
Proof.
  unfold wakeup_receiver_if_data.
  destruct (recv_queue ch) as [|c q]; simpl.
  - unfold ret. destruct (_ <? _)%nat; rewrite app_nil_r; now destruct s.
  - destruct (_ <? _)%nat; simpl; [reflexivity|].
    unfold ret. rewrite app_nil_r. now destruct s.
Qed.

(** X9.  A blocking send on an open channel with room never waits: every
    execution returns 0 in one go, with the message at the back of the
    queue, the first parked receiver woken, then the first parked sender
    woken if there is still room, and nothing else changed. *)
Theorem send_with_room_does_not_wait s channel ch self d :
  find_channel (channels s) channel = Some ch ->
  is_closed ch = false ->
  (length (data ch) < size_limit ch)%nat ->
  forall env r s',
    returns env (coro_bus_send self channel d) s tt r s' tt <->
    r = 0 /\
    s' = mkStore
           (<[Z.to_nat channel := Some (with_data ch (data ch ++ [d]))]> (channels s))
           (global_error s)
           (trace s ++ wake_head (recv_queue ch)
              ++ if (S (length (data ch)) <? size_limit ch)%nat
                 then wake_head (send_queue ch) else []).
Proof.
  intros Hf Hc Hroom env r s'.
  rewrite (returns_at_once env _ s tt 0 tt
             (mkStore
                (<[Z.to_nat channel := Some (with_data ch (data ch ++ [d]))]>
                   (channels s))
                (global_error s)
                (trace s ++ wake_head (recv_queue ch)
                   ++ if (S (length (data ch)) <? size_limit ch)%nat
                      then wake_head (send_queue ch) else []))).
  - tauto.
  - exact (enter_valid _ _ _ Hf).
  - cbn [op_body coro_bus_send]. rewrite no_out_value, send_body_cases.
    rewrite Hf, Hc.
    replace (Nat.eqb (size_limit ch) (length (data ch))) with false
      by (symmetry; apply Nat.eqb_neq; lia).
    rewrite (try_send_valid_not_full _ _ _ d Hf) by lia.
    rewrite wakeup_first_spec, wakeup_sender_if_room_spec.
    cbn [fst snd channels global_error trace data with_data size_limit send_queue].
    rewrite length_app. simpl length.
    replace (length (data ch) + 1)%nat with (S (length (data ch))) by lia.
    now rewrite <- app_assoc.
Qed.

Lemma send_with_room_does_not_wait_witness :
  let s := snd (coro_bus_channel_open 1 coro_bus_new) in
  returns (rtc step) (coro_bus_send 3%nat 0 9%N) s tt 0
    (mkStore [Some (mkChannel 1 [] [] [9%N] false)] CORO_BUS_ERR_NONE []) tt.
Proof.
  intros s.
  apply (send_with_room_does_not_wait s 0 (mkChannel 1 [] [] [] false) 3%nat 9%N
           eq_refl eq_refl ltac:(simpl; lia)).
  split; reflexivity.
Defined.

(** X10.  A blocking receive on an open channel that holds a message never
    waits: every execution returns 0 in one go with the oldest message in
    the out-parameter; that message has left the queue, the first parked
    sender is woken, then the first parked receiver if messages remain. *)
Theorem recv_with_message_does_not_wait s channel ch self front rest out :
  find_channel (channels s) channel = Some ch ->
  is_closed ch = false ->
  data ch = front :: rest ->
  forall env r s' out',
    returns env (coro_bus_recv self channel) s out r s' out' <->
    r = 0 /\
    s' = mkStore
           (<[Z.to_nat channel := Some (with_data ch rest)]> (channels s))
           (global_error s)
           (trace s ++ wake_head (send_queue ch)
              ++ if (0 <? length rest)%nat
                 then wake_head (recv_queue ch) else []) /\
    out' = front.
Proof.
  intros Hf Hc Hd env r s' out'.
  apply (returns_at_once env _ s out 0 front).
  - exact (enter_valid _ _ _ Hf).
  - cbn [op_body coro_bus_recv]. rewrite recv_body_cases.
    rewrite Hf, Hc, Hd.
    rewrite (try_recv_valid_nonempty _ _ _ out _ _ Hf Hd).
    rewrite wakeup_first_spec, wakeup_receiver_if_data_spec.
    cbn [fst snd channels global_error trace data with_data recv_queue].
    now rewrite <- app_assoc.
Qed.

Lemma recv_with_message_does_not_wait_witness :
  let s := snd (coro_bus_try_send 0 9%N
                  (snd (coro_bus_channel_open 1 coro_bus_new))) in
  returns (rtc step) (coro_bus_recv 3%nat 0) s 0%N 0
    (mkStore [Some (mkChannel 1 [] [] [] false)] CORO_BUS_ERR_NONE []) 9%N.
Proof.
  intros s.
  apply (recv_with_message_does_not_wait s 0 (mkChannel 1 [] [] [9%N] false)
           3%nat 9%N [] 0%N eq_refl eq_refl eq_refl).
  repeat split; reflexivity.
Defined.

(** ** What a blocking operation can return *)

Lemma loops_result {B : Type} env (op : blocking_op B) (P : Z -> Prop) :
  (forall b s r b' s', op_body op b s = ((Returned r, b'), s') -> P r) ->
  forall s b r s' b', loops env op s b r s' b' -> P r.
Proof.
  intros Hbody s b r s' b' Hl.
  induction Hl; eauto.
Qed.

Lemma send_v_loop_count limit buf : forall q send_c,
  (snd (send_v_loop limit buf q send_c) <= send_c + length buf)%nat.
Proof.
  induction buf as [|x rest IH]; intros q send_c; simpl; [lia|].
  destruct (Nat.eqb (length q) limit); simpl; [lia|].
  specialize (IH (q ++ [x]) (S send_c)). lia.
Qed.

Lemma send_body_result self channel d s r :
  fst (coro_bus_send_body self channel d s) = Returned r -> r = 0 \/ r = -1.
Proof.
  rewrite send_body_cases.
  destruct (find_channel (channels s) channel) as [ch|]; [|discriminate].
  destruct (is_closed ch); [intros [= <-]; auto|].
  destruct (Nat.eqb _ _); [|intros [= <-]; auto].
  intros H. now apply park_sender_not_returned in H.
Qed.

Lemma recv_body_result self channel out s r :
  fst (fst (coro_bus_recv_body self channel out s)) = Returned r ->
  r = 0 \/ r = -1.
Proof.
  rewrite recv_body_cases.
  destruct (find_channel (channels s) channel) as [ch|]; [|discriminate].
  destruct (is_closed ch); [intros [= <-]; auto|].
  destruct (data ch); [|intros [= <-]; auto].
  pose proof (park_receiver_not_returned self channel
                (set_error CORO_BUS_ERR_WOULD_BLOCK s) r) as Hp.
  destruct (park_receiver _ _ _). simpl in *. congruence.
Qed.

Lemma send_v_body_result self channel buf s r :
  fst (coro_bus_send_v_body self channel buf s) = Returned r ->
  r = -1 \/ 0 <= r <= Z.of_nat (length buf).
Proof.
  rewrite send_v_body_cases.
  destruct (find_channel (channels s) channel) as [ch|] eqn:Hf; [|discriminate].
  destruct (is_closed ch); [intros [= <-]; auto|].
  destruct (Nat.eqb _ _) eqn:He.
  - intros H. now apply park_sender_not_returned in H.
  - apply Nat.eqb_neq in He.
    rewrite (try_send_v_valid_not_full _ _ _ _ Hf He). cbn [fst].
    intros [= <-]. right.
    pose proof (send_v_loop_count (size_limit ch) buf (data ch) 0). lia.
Qed.

Lemma recv_v_body_result self channel capacity out s r :
  fst (fst (coro_bus_recv_v_body self channel capacity out s)) = Returned r ->
  r = -1 \/ 0 <= r <= Z.of_nat capacity.
Proof.
  rewrite recv_v_body_cases.
  destruct (find_channel (channels s) channel) as [ch|]; [|discriminate].
  destruct (is_closed ch); [intros [= <-]; auto|].
  destruct (data ch).
  - pose proof (park_receiver_not_returned self channel
                  (set_error CORO_BUS_ERR_WOULD_BLOCK s) r) as Hp.
    destruct (park_receiver _ _ _). simpl in *. congruence.
  - cbn [fst]. intros [= <-]. right. lia.
Qed.

Lemma broadcast_body_result self d s r :
  fst (coro_bus_broadcast_body self d s) = Returned r -> r = 0 \/ r = -1.
Proof.
  rewrite broadcast_body_cases.
  destruct (existsb live_and_full (channels s)).
  - destruct (find_blocking (channels s) 0); [|intros [= <-]; auto].
    intros H. now apply park_sender_not_returned in H.
  - destruct (existsb live (channels s)); intros [= <-]; auto.
Qed.

Lemma returns_result {B : Type} env (op : blocking_op B) (P : Z -> Prop) :
  (forall s r s', op_enter op s = (Returned r, s') -> P r) ->
  (forall b s r b' s', op_body op b s = ((Returned r, b'), s') -> P r) ->
  forall s b r s' b', returns env op s b r s' b' -> P r.
Proof.
  intros Henter Hbody s b r s' b' Hret.
  destruct Hret as [s b r s' H|s b s1 r s' b' _ Hl].
  - eapply Henter, H.
  - eapply loops_result; [exact Hbody|exact Hl].
Qed.

Lemma enter_result channel s r s' :
  blocking_enter channel s = (Returned r, s') -> r = -1.
Proof.
  rewrite blocking_enter_spec.
  destruct (find_channel (channels s) channel); [discriminate|].
  now intros [= <- _].
Qed.

(** X11.  Whatever the other coroutines do while it waits, a blocking operation
    that returns gives back only what its interface allows: [coro_bus_send],
    [coro_bus_recv] and [coro_bus_broadcast] return 0 or -1,
    [coro_bus_send_v] returns -1 or a count between 0 and the length of the
    batch, and [coro_bus_recv_v] returns -1 or a count between 0 and the
    capacity of the array. *)
Theorem blocking_results_in_range env s r s' :
  (forall self channel d,
     returns env (coro_bus_send self channel d) s tt r s' tt ->
     r = 0 \/ r = -1) /\
  (forall self channel out out',
     returns env (coro_bus_recv self channel) s out r s' out' ->
     r = 0 \/ r = -1) /\
  (forall self d,
     returns env (coro_bus_broadcast self d) s tt r s' tt ->
     r = 0 \/ r = -1) /\
  (forall self channel buf,
     returns env (coro_bus_send_v self channel buf) s tt r s' tt ->
     r = -1 \/ 0 <= r <= Z.of_nat (length buf)) /\
  (forall self channel capacity out out',
     returns env (coro_bus_recv_v self channel capacity) s out r s' out' ->
     r = -1 \/ 0 <= r <= Z.of_nat capacity).
Proof.
  split; [|split; [|split; [|split]]].
  - intros self channel d.
    apply (returns_result env (coro_bus_send self channel d)
             (fun r => r = 0 \/ r = -1)).
    + intros s0 r0 s0' H. right. eapply enter_result, H.
    + intros b s0 r0 b' s0' H. apply (no_out_inv _ b) in H.
      apply (send_body_result self channel d s0). now rewrite H.
  - intros self channel out out'.
    apply (returns_result env (coro_bus_recv self channel)
             (fun r => r = 0 \/ r = -1)).
    + intros s0 r0 s0' H. right. eapply enter_result, H.
    + intros b s0 r0 b' s0' H. cbn [op_body coro_bus_recv] in H.
      apply (recv_body_result self channel b s0). now rewrite H.
  - intros self d.
    apply (returns_result env (coro_bus_broadcast self d)
             (fun r => r = 0 \/ r = -1)).
    + discriminate.
    + intros b s0 r0 b' s0' H. apply (no_out_inv _ b) in H.
      apply (broadcast_body_result self d s0). now rewrite H.
  - intros self channel buf.
    apply (returns_result env (coro_bus_send_v self channel buf)
             (fun r => r = -1 \/ 0 <= r <= Z.of_nat (length buf))).
    + intros s0 r0 s0' H. left. eapply enter_result, H.
    + intros b s0 r0 b' s0' H. apply (no_out_inv _ b) in H.
      apply (send_v_body_result self channel buf s0). now rewrite H.
  - intros self channel capacity out out'.
    apply (returns_result env (coro_bus_recv_v self channel capacity)
             (fun r => r = -1 \/ 0 <= r <= Z.of_nat capacity)).
    + intros s0 r0 s0' H. left. eapply enter_result, H.
    + intros b s0 r0 b' s0' H. cbn [op_body coro_bus_recv_v] in H.
      apply (recv_v_body_result self channel capacity b s0). now rewrite H.
Qed.

Lemma blocking_results_in_range_witness :
  let s := snd (coro_bus_channel_open 2 coro_bus_new) in
  let s' := mkStore [Some (mkChannel 2 [] [] [1; 2]%N false)] CORO_BUS_ERR_NONE [] in
  returns (rtc step) (coro_bus_send_v 3%nat 0 [1; 2; 3]%N) s tt 2 s' tt /\
  (2 = -1 \/ 0 <= 2 <= Z.of_nat (length [1; 2; 3]%N)).
Proof.
  intros s s'.
  assert (Hret : returns (rtc step) (coro_bus_send_v 3%nat 0 [1; 2; 3]%N)
                   s tt 2 s' tt).
  { apply returns_loop with (s1 := s); [reflexivity|].
    apply loops_return. reflexivity. }
  split; [exact Hret|].
  destruct (blocking_results_in_range (rtc step) s 2 s') as (_ & _ & _ & Hv & _).
  exact (Hv 3%nat 0 [1; 2; 3]%N Hret).
Defined.

(** ** Waiting and giving up the wait *)






(** ** After a close *)

(** X13.  Once [coro_bus_channel_close] has run to its end on a channel, with no
    other coroutine touching the bus during its yield, the slot is empty,
    every other slot is as before and so is the error slot, the messages
    still queued in the channel are gone with it, and the id is refused:
    the non-blocking send and receive on it fail with NO_CHANNEL. *)
Theorem closed_id_is_refused s channel ch :
  find_channel (channels s) channel = Some ch ->
  let s' := snd (coro_bus_channel_close channel s) in
  channels s' = <[Z.to_nat channel := None]> (channels s) /\
  global_error s' = global_error s /\
  find_channel (channels s') channel = None /\
  (forall d,
     coro_bus_try_send channel d s' = (-1, set_error CORO_BUS_ERR_NO_CHANNEL s')) /\
  (forall out,
     coro_bus_try_recv channel out s' =
       ((-1, out), set_error CORO_BUS_ERR_NO_CHANNEL s')).
Proof.
  intros Hf s'.
  assert (Hs' : channels s' = <[Z.to_nat channel := None]> (channels s) /\
                global_error s' = global_error s)
    by (unfold s'; now rewrite (channel_close_valid _ _ _ Hf)).
  destruct Hs' as [Hch Herr].
  assert (Hnone : find_channel (channels s') channel = None).
  { apply find_channel_None. right. right. rewrite Hch.
    apply list_lookup_insert_eq.
    eapply lookup_lt_Some, find_channel_lookup, Hf. }
  split; [exact Hch|]. split; [exact Herr|]. split; [exact Hnone|].
  split; intros.
  - now apply try_send_invalid.
  - now apply try_recv_invalid.
Qed.

Lemma closed_id_is_refused_witness :
  let s := snd (coro_bus_try_send 0 1%N
                  (snd (coro_bus_channel_open 2 coro_bus_new))) in
  let s' := snd (coro_bus_channel_close 0 s) in
  channels s' = [None] /\
  coro_bus_try_recv 0 5%N s' = ((-1, 5%N), set_error CORO_BUS_ERR_NO_CHANNEL s').
Proof.
  intros s s'.
  destruct (closed_id_is_refused s 0 (mkChannel 2 [] [] [1%N] false) eq_refl)
    as (Hch & _ & _ & _ & Hrecv).
  split; [exact Hch|exact (Hrecv 5%N)].
Defined.

(** ** Deleting the bus *)

Lemma delete_loop_spec slots : forall pre s k,
  channels s = pre ++ slots ->
  coro_bus_delete_loop (length slots + k) (length pre) s =
    (tt, mkStore (pre ++ replicate (length slots) None) (global_error s)
           (trace s ++ delete_events slots (length pre))).
Proof.
  induction slots as [|slot rest IH]; intros pre s k Hs.
  - simpl. rewrite !app_nil_r.
    assert (Hend : (tt, s) =
                   (tt, mkStore pre (global_error s) (trace s)))
      by (rewrite app_nil_r in Hs; rewrite <- Hs; now destruct s).
    destruct k as [|k]; simpl; [exact Hend|].
    unfold bind, get_channels. rewrite Hs, app_nil_r.
    now rewrite Nat.ltb_irrefl.
  - cbn [length Nat.add coro_bus_delete_loop]. unfold bind at 1, get_channels.
    replace (length pre <? length (channels s))%nat with true
      by (symmetry; apply Nat.ltb_lt; rewrite Hs, length_app; simpl; lia).
    assert (Hl : channels s !! length pre = Some slot)
      by (rewrite Hs; apply list_lookup_middle; reflexivity).
    assert (Hclose : coro_bus_channel_close (Z.of_nat (length pre)) s =
              (ReturnedVoid,
               mkStore (pre ++ None :: rest) (global_error s)
                       (trace s ++ close_events (length pre) slot))).
    { destruct slot as [ch|].
      - rewrite (channel_close_valid s _ ch) by (now apply find_channel_slot).
        rewrite Nat2Z.id, Hs, insert_after_prefix. reflexivity.
      - rewrite channel_close_invalid.
        + simpl. rewrite app_nil_r, <- Hs. now destruct s.
        + apply find_channel_None. right. right. now rewrite Nat2Z.id. }
    unfold bind. rewrite Hclose.
    replace (S (length pre)) with (length (pre ++ [None]))
      by (rewrite length_app; simpl; lia).
    rewrite IH by (cbn [channels]; now rewrite <- app_assoc).
    cbn [global_error trace replicate delete_events].
    rewrite <- !app_assoc. simpl.
    replace (length (pre ++ [None])) with (S (length pre))
      by (rewrite length_app; simpl; lia).
    reflexivity.
Qed.

(** X14.  [coro_bus_delete], with no other coroutine touching the bus during its
    yields, closes every channel that is left: afterwards every slot of the
    vector is empty, the error slot is untouched, and the trace has grown,
    slot by slot, by the wakeup of every sender and every receiver parked
    on the channel followed by one yield and the deletion of the channel.
    The loop stops because it has reached the end of the vector: more fuel
    changes nothing. *)
Theorem delete_closes_every_channel s :
  let emptied :=
    mkStore (replicate (length (channels s)) None) (global_error s)
            (trace s ++ delete_events (channels s) 0) in
  coro_bus_delete s = (tt, emptied) /\
  forall k,
    coro_bus_delete_loop (length (channels s) + k) 0 s = (tt, emptied).
Proof.
  intros emptied.
  assert (Hloop : forall k,
    coro_bus_delete_loop (length (channels s) + k) 0 s = (tt, emptied)).
  { intros k.
    exact (delete_loop_spec (channels s) [] s k eq_refl). }
  split; [|exact Hloop].
  unfold coro_bus_delete, bind, get_channels.
  specialize (Hloop 0%nat). now rewrite Nat.add_0_r in Hloop.
Qed.

(** ** The blocking broadcast *)




Lemma broadcast_wakeup_senders_spec slots : forall s,
  broadcast_wakeup_senders slots s =
    (tt, mkStore (channels s) (global_error s) (trace s ++ sender_wakeups slots)).
Proof.
  induction slots as [|slot rest IH]; intros s.
  - simpl. unfold ret. rewrite app_nil_r. now destruct s.
  - cbn [broadcast_wakeup_senders sender_wakeups flat_map]. unfold bind.
    destruct slot as [ch|].
    + rewrite wakeup_sender_if_room_spec, IH.
      cbn [channels global_error trace]. now rewrite <- app_assoc.
    + unfold ret. rewrite IH. reflexivity.
Qed.

(** X16.  When no live channel is full a blocking broadcast never waits.  With
    at least one live channel every execution returns 0 in one go: every
    live channel has the message at the back of its queue, the first
    receiver parked on each has been woken, then the first sender parked on
    each channel that has room, and nothing else has changed.  With no live
    channel every execution returns -1 with NO_CHANNEL at once. *)
Theorem broadcast_without_full_channel_does_not_wait s self d :
  existsb live_and_full (channels s) = false ->
  forall env r s',
    returns env (coro_bus_broadcast self d) s tt r s' tt <->
    if existsb live (channels s) then
      r = 0 /\
      s' = mkStore (map (deliver_slot d) (channels s)) (global_error s)
             (trace s ++ deliver_wakeups (channels s)
                ++ sender_wakeups (map (deliver_slot d) (channels s)))
    else r = -1 /\ s' = set_error CORO_BUS_ERR_NO_CHANNEL s.
Proof.
  intros Hfull env r s'.
  destruct (existsb live (channels s)) eqn:Hlive.
  - rewrite (returns_at_once env _ s tt 0 tt
               (mkStore (map (deliver_slot d) (channels s)) (global_error s)
                  (trace s ++ deliver_wakeups (channels s)
                     ++ sender_wakeups (map (deliver_slot d) (channels s)))));
      [tauto|reflexivity|].
    cbn [op_body coro_bus_broadcast].
    rewrite no_out_value, broadcast_body_cases, Hfull, Hlive.
    rewrite try_broadcast_spec, Hfull, Hlive.
    rewrite broadcast_wakeup_senders_spec.
    cbn [fst snd channels global_error trace]. now rewrite <- app_assoc.
  - rewrite (returns_at_once env _ s tt (-1) tt
               (set_error CORO_BUS_ERR_NO_CHANNEL s));
      [tauto|reflexivity|].
    cbn [op_body coro_bus_broadcast].
    rewrite no_out_value, broadcast_body_cases, Hfull, Hlive. reflexivity.
Qed.

Lemma broadcast_without_full_channel_does_not_wait_witness :
  let s := snd (coro_bus_channel_open 1
             (snd (coro_bus_channel_open 1 coro_bus_new))) in
  returns (rtc step) (coro_bus_broadcast 4%nat 7%N) s tt 0
    (mkStore [Some (mkChannel 1 [] [] [7%N] false);
              Some (mkChannel 1 [] [] [7%N] false)] CORO_BUS_ERR_NONE []) tt.
Proof.
  intros s.
  apply (broadcast_without_full_channel_does_not_wait s 4%nat 7%N eq_refl).
  split; reflexivity.
Defined.

(** ** Who gets woken *)

Lemma wakes_linked_nil chs : wakes_linked chs [].
Proof. intros c []. Qed.

Lemma wakes_linked_app chs evs1 evs2 :
  wakes_linked chs evs1 -> wakes_linked chs evs2 ->
  wakes_linked chs (evs1 ++ evs2).
Proof.
  intros H1 H2 c Hin. apply in_app_or in Hin as [Hin|Hin]; auto.
Qed.

Lemma wakes_linked_senders_of chs (i : nat) ch :
  chs !! i = Some (Some ch) -> wakes_linked chs (map EvWakeup (send_queue ch)).
Proof.
  intros Hl c Hin. apply in_map_iff in Hin as (c' & [= ->] & Hin).
  exists i, ch. auto.
Qed.

Lemma wakes_linked_receivers_of chs (i : nat) ch :
  chs !! i = Some (Some ch) -> wakes_linked chs (map EvWakeup (recv_queue ch)).
Proof.
  intros Hl c Hin. apply in_map_iff in Hin as (c' & [= ->] & Hin).
  exists i, ch. auto.
Qed.

Lemma wakes_linked_first_sender chs (i : nat) ch :
  chs !! i = Some (Some ch) -> wakes_linked chs (wake_head (send_queue ch)).
Proof.
  intros Hl c Hin. exists i, ch. split; [exact Hl|]. left.
  destruct (send_queue ch) as [|c' q]; simpl in Hin; [contradiction|].
  destruct Hin as [[= ->]|[]]. now left.
Qed.

Lemma wakes_linked_first_receiver chs (i : nat) ch :
  chs !! i = Some (Some ch) -> wakes_linked chs (wake_head (recv_queue ch)).
Proof.
  intros Hl c Hin. exists i, ch. split; [exact Hl|]. right.
  destruct (recv_queue ch) as [|c' q]; simpl in Hin; [contradiction|].
  destruct Hin as [[= ->]|[]]. now left.
Qed.

Lemma wakes_linked_deliver slots : forall pre,
  wakes_linked (pre ++ slots) (deliver_wakeups slots).
Proof.
  induction slots as [|slot rest IH]; intros pre; [apply wakes_linked_nil|].
  cbn [deliver_wakeups flat_map]. apply wakes_linked_app.
  - destruct slot as [ch|]; [|apply wakes_linked_nil].
    destruct (is_closed ch); [apply wakes_linked_nil|].
    apply (wakes_linked_first_receiver _ (length pre)).
    apply list_lookup_middle. reflexivity.
  - specialize (IH (pre ++ [slot])). now rewrite <- app_assoc in IH.
Qed.

Lemma wakes_linked_after_deliver d slots : forall pre,
  wakes_linked (pre ++ slots) (sender_wakeups (map (deliver_slot d) slots)).
Proof.
  induction slots as [|slot rest IH]; intros pre; [apply wakes_linked_nil|].
  cbn [map sender_wakeups flat_map]. apply wakes_linked_app.
  - destruct slot as [ch|]; [|apply wakes_linked_nil]. simpl.
    assert (Hl : (pre ++ Some ch :: rest) !! length pre = Some (Some ch))
      by (apply list_lookup_middle; reflexivity).
    destruct (is_closed ch); simpl;
      (destruct (_ <? _)%nat; [|apply wakes_linked_nil]);
      exact (wakes_linked_first_sender _ _ _ Hl).
  - specialize (IH (pre ++ [slot])). now rewrite <- app_assoc in IH.
Qed.

Lemma polite_intro s s' evs :
  trace s' = trace s ++ evs -> wakes_linked (channels s) evs -> polite s s'.
Proof. intros Ht Hw. now exists evs. Qed.

Lemma polite_quiet s s' : trace s' = trace s -> polite s s'.
Proof.
  intros Ht. apply (polite_intro s s' []); [now rewrite app_nil_r|].
  apply wakes_linked_nil.
Qed.

Lemma wakes_linked_one chs e :
  (forall c, e <> EvWakeup c) -> wakes_linked chs [e].
Proof. intros Hne c [->|[]]. now destruct (Hne c). Qed.

Lemma polite_try_send channel d s :
  polite s (snd (coro_bus_try_send channel d s)).
Proof.
  destruct (find_channel (channels s) channel) as [ch|] eqn:Hf.
  - destruct (Nat.eq_dec (size_limit ch) (length (data ch))) as [He|Hne].
    + rewrite (try_send_valid_full _ _ _ _ Hf He). now apply polite_quiet.
    + rewrite (try_send_valid_not_full _ _ _ _ Hf Hne), wakeup_first_spec.
      eapply polite_intro; [reflexivity|].
      eapply wakes_linked_first_receiver, find_channel_lookup, Hf.
  - rewrite (try_send_invalid _ _ _ Hf). now apply polite_quiet.
Qed.

Lemma polite_try_recv channel out s :
  polite s (snd (coro_bus_try_recv channel out s)).
Proof.
  destruct (find_channel (channels s) channel) as [ch|] eqn:Hf.
  - destruct (data ch) as [|front rest] eqn:Hd.
    + rewrite (try_recv_valid_empty _ _ _ _ Hf Hd). now apply polite_quiet.
    + rewrite (try_recv_valid_nonempty _ _ _ _ _ _ Hf Hd), wakeup_first_spec.
      eapply polite_intro; [reflexivity|].
      eapply wakes_linked_first_sender, find_channel_lookup, Hf.
  - rewrite (try_recv_invalid _ _ _ Hf). now apply polite_quiet.
Qed.

Lemma polite_try_send_v channel buf s :
  polite s (snd (coro_bus_try_send_v channel buf s)).
Proof.
  destruct (find_channel (channels s) channel) as [ch|] eqn:Hf.
  - destruct (Nat.eq_dec (size_limit ch) (length (data ch))) as [He|Hne].
    + rewrite (try_send_v_valid_full _ _ _ _ Hf He). now apply polite_quiet.
    + rewrite (try_send_v_valid_not_full _ _ _ _ Hf Hne), wakeup_first_spec.
      eapply polite_intro; [reflexivity|].
      eapply wakes_linked_first_receiver, find_channel_lookup, Hf.
  - rewrite (try_send_v_invalid _ _ _ Hf). now apply polite_quiet.
Qed.

Lemma polite_try_recv_v channel out capacity s :
  polite s (snd (coro_bus_try_recv_v channel out capacity s)).
Proof.
  destruct (find_channel (channels s) channel) as [ch|] eqn:Hf.
  - assert (Hd : data ch = [] \/ data ch <> [])
      by (destruct (data ch); [left|right]; congruence).
    destruct Hd as [Hd|Hd].
    + rewrite (try_recv_v_valid_empty _ _ _ _ _ Hf Hd). now apply polite_quiet.
    + rewrite (try_recv_v_valid_nonempty_eq _ _ _ _ _ Hf Hd), wakeup_first_spec.
      eapply polite_intro; [reflexivity|].
      eapply wakes_linked_first_sender, find_channel_lookup, Hf.
  - rewrite (try_recv_v_invalid _ _ _ _ Hf). now apply polite_quiet.
Qed.

Lemma polite_try_broadcast d s :
  polite s (snd (coro_bus_try_broadcast d s)).
Proof.
  rewrite try_broadcast_spec.
  destruct (existsb live_and_full (channels s)); [now apply polite_quiet|].
  destruct (existsb live (channels s)); [|now apply polite_quiet].
  eapply polite_intro; [reflexivity|]. exact (wakes_linked_deliver _ []).
Qed.

Lemma polite_park_sender self channel s0 s :
  trace s = trace s0 ->
  polite s0 (snd (park_sender self channel s)).
Proof.
  intros Ht. rewrite park_sender_spec.
  destruct (find_channel (channels s) channel); [|now apply polite_quiet].
  eapply polite_intro; [cbn [snd trace]; now rewrite Ht|].
  apply wakes_linked_one. discriminate.
Qed.

Lemma polite_park_receiver self channel s0 s :
  trace s = trace s0 ->
  polite s0 (snd (park_receiver self channel s)).
Proof.
  intros Ht. rewrite park_receiver_spec.
  destruct (find_channel (channels s) channel); [|now apply polite_quiet].
  eapply polite_intro; [cbn [snd trace]; now rewrite Ht|].
  apply wakes_linked_one. discriminate.
Qed.

Lemma polite_send_body self channel d s :
  polite s (snd (coro_bus_send_body self channel d s)).
Proof.
  rewrite send_body_cases.
  destruct (find_channel (channels s) channel) as [ch|] eqn:Hf;
    [|now apply polite_quiet].
  destruct (is_closed ch); [now apply polite_quiet|].
  destruct (Nat.eqb _ _) eqn:He; [now apply polite_park_sender|].
  apply Nat.eqb_neq in He. pose proof (find_channel_lookup _ _ _ Hf) as Hl.
  rewrite (try_send_valid_not_full _ _ _ _ Hf He).
  rewrite wakeup_first_spec, wakeup_sender_if_room_spec.
  eapply polite_intro; [cbn [snd trace]; now rewrite <- app_assoc|].
  apply wakes_linked_app; [exact (wakes_linked_first_receiver _ _ _ Hl)|].
  destruct (_ <? _)%nat; [|apply wakes_linked_nil].
  exact (wakes_linked_first_sender _ _ _ Hl).
Qed.

Lemma polite_recv_body self channel out s :
  polite s (snd (coro_bus_recv_body self channel out s)).
Proof.
  rewrite recv_body_cases.
  destruct (find_channel (channels s) channel) as [ch|] eqn:Hf;
    [|now apply polite_quiet].
  destruct (is_closed ch); [now apply polite_quiet|].
  destruct (data ch) as [|front rest] eqn:Hd.
  - pose proof (polite_park_receiver self channel s
                  (set_error CORO_BUS_ERR_WOULD_BLOCK s) eq_refl) as Hp.
    now destruct (park_receiver _ _ _).
  - pose proof (find_channel_lookup _ _ _ Hf) as Hl.
    rewrite (try_recv_valid_nonempty _ _ _ _ _ _ Hf Hd).
    rewrite wakeup_first_spec, wakeup_receiver_if_data_spec.
    eapply polite_intro; [cbn [snd trace]; now rewrite <- app_assoc|].
    apply wakes_linked_app; [exact (wakes_linked_first_sender _ _ _ Hl)|].
    destruct (_ <? _)%nat; [|apply wakes_linked_nil].
    exact (wakes_linked_first_receiver _ _ _ Hl).
Qed.

Lemma polite_send_v_body self channel buf s :
  polite s (snd (coro_bus_send_v_body self channel buf s)).
Proof.
  rewrite send_v_body_cases.
  destruct (find_channel (channels s) channel) as [ch|] eqn:Hf;
    [|now apply polite_quiet].
  destruct (is_closed ch); [now apply polite_quiet|].
  destruct (Nat.eqb _ _) eqn:He; [now apply polite_park_sender|].
  apply Nat.eqb_neq in He. pose proof (find_channel_lookup _ _ _ Hf) as Hl.
  rewrite (try_send_v_valid_not_full _ _ _ _ Hf He).
  rewrite wakeup_first_spec, wakeup_sender_if_room_spec.
  eapply polite_intro; [cbn [snd trace]; now rewrite <- app_assoc|].
  apply wakes_linked_app; [exact (wakes_linked_first_receiver _ _ _ Hl)|].
  destruct (_ <? _)%nat; [|apply wakes_linked_nil].
  exact (wakes_linked_first_sender _ _ _ Hl).
Qed.

Lemma polite_recv_v_body self channel capacity out s :
  polite s (snd (coro_bus_recv_v_body self channel capacity out s)).
Proof.
  rewrite recv_v_body_cases.
  destruct (find_channel (channels s) channel) as [ch|] eqn:Hf;
    [|now apply polite_quiet].
  destruct (is_closed ch); [now apply polite_quiet|].
  assert (Hd : data ch = [] \/ data ch <> [])
    by (destruct (data ch); [left|right]; congruence).
  destruct Hd as [Hd|Hd].
  - rewrite Hd.
    pose proof (polite_park_receiver self channel s
                  (set_error CORO_BUS_ERR_WOULD_BLOCK s) eq_refl) as Hp.
    now destruct (park_receiver _ _ _).
  - pose proof (find_channel_lookup _ _ _ Hf) as Hl.
    rewrite (try_recv_v_valid_nonempty_eq _ _ _ _ _ Hf Hd).
    rewrite wakeup_first_spec, wakeup_receiver_if_data_spec.
    destruct (data ch) as [|front rest] eqn:Hd'; [congruence|].
    eapply polite_intro; [cbn [snd trace]; now rewrite <- app_assoc|].
    apply wakes_linked_app; [exact (wakes_linked_first_sender _ _ _ Hl)|].
    destruct (_ <? _)%nat; [|apply wakes_linked_nil].
    exact (wakes_linked_first_receiver _ _ _ Hl).
Qed.

Lemma polite_broadcast_body self d s :
  polite s (snd (coro_bus_broadcast_body self d s)).
Proof.
  rewrite broadcast_body_cases.
  destruct (existsb live_and_full (channels s)) eqn:Hfull.
  - destruct (find_blocking (channels s) 0); [|now apply polite_quiet].
    now apply polite_park_sender.
  - destruct (existsb live (channels s)) eqn:Hlive; [|now apply polite_quiet].
    rewrite try_broadcast_spec, Hfull, Hlive, broadcast_wakeup_senders_spec.
    eapply polite_intro; [cbn [snd trace]; now rewrite <- app_assoc|].
    apply wakes_linked_app.
    + exact (wakes_linked_deliver _ []).
    + exact (wakes_linked_after_deliver d _ []).
Qed.

(** X17.  No action ever wakes a coroutine that is not waiting on the bus: over
    any one action the trace of runtime calls only grows, and every
    [coro_wakeup] it gains is for a coroutine that had an entry in a waiter
    list of some channel when the action started. *)
Theorem only_waiters_are_woken a s :
  exists evs,
    trace (snd (perform a s)) = trace s ++ evs /\
    forall c, In (EvWakeup c) evs -> linked (channels s) c.
Proof.
  change (polite s (snd (perform a s))).
  destruct a; cbn [perform]; rewrite ?snd_returning.
  - now apply polite_quiet.
  - apply polite_quiet. rewrite channel_open_spec.
    now destruct (first_free (channels s) 0).
  - destruct (find_channel (channels s) channel) as [ch|] eqn:Hf.
    + pose proof (find_channel_lookup _ _ _ Hf) as Hl.
      rewrite (close_begin_valid _ _ _ Hf).
      eapply polite_intro; [reflexivity|].
      apply wakes_linked_app; [exact (wakes_linked_senders_of _ _ _ Hl)|].
      apply wakes_linked_app; [exact (wakes_linked_receivers_of _ _ _ Hl)|].
      apply wakes_linked_one. discriminate.
    + rewrite (close_begin_invalid _ _ Hf). now apply polite_quiet.
  - destruct (find_channel (channels s) channel) as [ch|] eqn:Hf.
    + rewrite (close_finish_valid _ _ _ Hf).
      eapply polite_intro; [reflexivity|]. apply wakes_linked_one. discriminate.
    + rewrite (close_finish_invalid _ _ Hf). now apply polite_quiet.
  - apply polite_try_send.
  - apply polite_try_recv.
  - apply polite_try_broadcast.
  - apply polite_try_send_v.
  - apply polite_try_recv_v.
  - apply polite_quiet. rewrite blocking_enter_spec.
    now destruct (find_channel (channels s) channel).
  - apply polite_send_body.
  - apply polite_recv_body.
  - apply polite_send_v_body.
  - apply polite_recv_v_body.
  - apply polite_broadcast_body.
  - apply polite_quiet. rewrite resume_sender_spec.
    now destruct (channels s !! slot) as [[ch|]|].
  - apply polite_quiet. rewrite resume_receiver_spec.
    now destruct (channels s !! slot) as [[ch|]|].
Qed.

Lemma only_waiters_are_woken_witness :
  let s := snd (coro_bus_send_body 7%nat 0 2%N
             (snd (coro_bus_try_send 0 1%N
               (snd (coro_bus_channel_open 1 coro_bus_new))))) in
  trace (snd (perform (ActTryRecv 0 0%N) s)) = trace s ++ [EvWakeup 7%nat] /\
  linked (channels s) 7%nat.
Proof.
  intros s. split; [reflexivity|].
  destruct (only_waiters_are_woken (ActTryRecv 0 0%N) s) as (evs & Ht & Hw).
  apply Hw.
  assert (He : evs = [EvWakeup 7%nat]).
  { change (trace (snd (perform (ActTryRecv 0 0%N) s)))
      with (trace s ++ [EvWakeup 7%nat]) in Ht.
    now apply app_inv_head in Ht. }
  rewrite He. now left.
Defined.

(** ** What a successful blocking send leaves behind *)

Lemma loops_last {B : Type} env (op : blocking_op B) s b r s' b' :
  loops env op s b r s' b' ->
  exists b0 s0, op_body op b0 s0 = ((Returned r, b'), s').
Proof. induction 1; eauto. Qed.

Lemma send_v_loop_prefix limit buf : forall q send_c,
  exists k,
    (k <= length buf)%nat /\
    send_v_loop limit buf q send_c = (q ++ take k buf, (send_c + k)%nat).
Proof.
  induction buf as [|x rest IH]; intros q send_c; simpl.
  - exists 0%nat. rewrite app_nil_r, Nat.add_0_r. auto.
  - destruct (Nat.eqb (length q) limit).
    + exists 0%nat. simpl. rewrite app_nil_r, Nat.add_0_r. split; [lia|auto].
    + destruct (IH (q ++ [x]) (S send_c)) as (k & Hk & ->).
      exists (S k). split; [lia|]. simpl. rewrite <- app_assoc. simpl.
      f_equal. lia.
Qed.

(** X18.  Whatever happened while it waited, at the moment a blocking send
    returns 0 its channel is in its slot, not closed, and has the message at
    the back of its queue; and at the moment a blocking vectorized send
    returns a count [r >= 0] the queue of its channel ends with exactly the
    first [r] values of the batch. *)
Theorem successful_send_has_queued_its_message env s r s' channel self :
  (forall d,
     returns env (coro_bus_send self channel d) s tt r s' tt ->
     r = 0 ->
     exists ch' q,
       find_channel (channels s') channel = Some ch' /\
       is_closed ch' = false /\ data ch' = q ++ [d]) /\
  (forall buf,
     returns env (coro_bus_send_v self channel buf) s tt r s' tt ->
     0 <= r ->
     exists ch' q,
       find_channel (channels s') channel = Some ch' /\
       is_closed ch' = false /\ data ch' = q ++ take (Z.to_nat r) buf).
Proof.
  split.
  - intros d Hret Hr.
    destruct Hret as [s b r s' H|s b s1 r s' b' _ Hl].
    { apply enter_result in H. lia. }
    subst r. apply loops_last in Hl as (b0 & s0 & Hbody).
    apply (no_out_inv _ b0) in Hbody. rewrite send_body_cases in Hbody.
    destruct (find_channel (channels s0) channel) as [ch|] eqn:Hf;
      [|discriminate].
    destruct (is_closed ch) eqn:Hc; [discriminate|].
    destruct (Nat.eqb _ _) eqn:He.
    { exfalso.
      apply (park_sender_not_returned self channel
               (set_error CORO_BUS_ERR_WOULD_BLOCK s0) 0).
      now rewrite Hbody. }
    apply Nat.eqb_neq in He. injection Hbody as <-.
    exists (with_data ch (data ch ++ [d])), (data ch).
    rewrite find_channel_silent by apply silent_wakeup_sender_if_room.
    rewrite (try_send_valid_not_full _ _ _ _ Hf He). cbn [snd].
    rewrite find_channel_silent by apply silent_wakeup_first.
    cbn [channels]. split; [eapply find_channel_insert; eauto|]. auto.
  - intros buf Hret Hpos.
    destruct Hret as [s b r s' H|s b s1 r s' b' _ Hl].
    { apply enter_result in H. lia. }
    apply loops_last in Hl as (b0 & s0 & Hbody).
    apply (no_out_inv _ b0) in Hbody. rewrite send_v_body_cases in Hbody.
    destruct (find_channel (channels s0) channel) as [ch|] eqn:Hf;
      [|discriminate].
    destruct (is_closed ch) eqn:Hc; [injection Hbody as <- _; lia|].
    destruct (Nat.eqb _ _) eqn:He.
    { exfalso.
      apply (park_sender_not_returned self channel
               (set_error CORO_BUS_ERR_WOULD_BLOCK s0) r).
      now rewrite Hbody. }
    apply Nat.eqb_neq in He.
    rewrite (try_send_v_valid_not_full _ _ _ _ Hf He) in Hbody.
    cbn [fst snd] in Hbody.
    destruct (send_v_loop_prefix (size_limit ch) buf (data ch) 0)
      as (k & Hk & Hloop).
    rewrite Hloop in Hbody. cbn [fst snd] in Hbody.
    injection Hbody as <- <-.
    exists (with_data ch (data ch ++ take k buf)), (data ch).
    rewrite find_channel_silent by apply silent_wakeup_sender_if_room.
    rewrite find_channel_silent by apply silent_wakeup_first.
    cbn [channels]. split; [eapply find_channel_insert; eauto|].
    split; [exact Hc|]. simpl. now rewrite Nat2Z.id.
Qed.

Lemma successful_send_has_queued_its_message_witness :
  let s := snd (coro_bus_try_send 0 1%N
                  (snd (coro_bus_channel_open 2 coro_bus_new))) in
  exists s' ch' q,
    returns (rtc step) (coro_bus_send 3%nat 0 9%N) s tt 0 s' tt /\
    find_channel (channels s') 0 = Some ch' /\ data ch' = q ++ [9%N].
Proof.
  intros s.
  set (s' := mkStore [Some (mkChannel 2 [] [] [1; 9]%N false)]
                     CORO_BUS_ERR_NONE []).
  assert (Hret : returns (rtc step) (coro_bus_send 3%nat 0 9%N) s tt 0 s' tt).
  { apply returns_loop with (s1 := s); [reflexivity|].
    apply loops_return. reflexivity. }
  destruct (proj1 (successful_send_has_queued_its_message
                     (rtc step) s 0 s' 0 3%nat) 9%N Hret eq_refl)
    as (ch' & q & Hf & _ & Hd).
  exists s', ch', q. auto.
Defined.

(** ** Hand-over between a waiter and the next operation *)

(** X19.  A receiver that parks on an open, empty channel on which nobody else is
    waiting is served by the next send: the send returns 0 and wakes exactly
    that receiver; resumed, the receiver takes its entry out, finds the
    message and returns 0 with it; and the channels are then exactly as they
    were before the receiver came.  This is an execution of
    [coro_bus_recv]. *)
Theorem parked_receiver_gets_the_next_message s channel cap senders self d out :
  find_channel (channels s) channel = Some (mkChannel cap senders [] [] false) ->
  (0 < cap)%nat ->
  exists s1 s2 s3 s4,
    coro_bus_recv_body self channel out s =
      ((Suspended (Z.to_nat channel), out), s1) /\
    coro_bus_try_send channel d s1 = (0, s2) /\
    trace s2 = trace s1 ++ [EvWakeup self] /\
    resume_receiver self (Z.to_nat channel) s2 = (Again, s3) /\
    coro_bus_recv_body self channel out s3 = ((Returned 0, d), s4) /\
    channels s4 = channels s /\
    returns (rtc step) (coro_bus_recv self channel) s out 0 s4 d.
Proof.
  intros Hf Hcap.
  pose proof (find_channel_lookup _ _ _ Hf) as Hl.
  assert (Hlt : (Z.to_nat channel < length (channels s))%nat)
    by (eapply lookup_lt_Some; eauto).
  set (i := Z.to_nat channel) in *.
  set (s1 := mkStore (<[i := Some (mkChannel cap senders [self] [] false)]>
                        (channels s))
                     CORO_BUS_ERR_WOULD_BLOCK (trace s ++ [EvSuspend])).
  set (s2 := mkStore (<[i := Some (mkChannel cap senders [self] [d] false)]>
                        (channels s))
                     CORO_BUS_ERR_WOULD_BLOCK
                     ((trace s ++ [EvSuspend]) ++ [EvWakeup self])).
  set (s3 := mkStore (<[i := Some (mkChannel cap senders [] [d] false)]>
                        (channels s))
                     CORO_BUS_ERR_WOULD_BLOCK (trace s2)).
  set (s4 := mkStore (channels s) CORO_BUS_ERR_WOULD_BLOCK
                     (trace s2 ++ wake_head senders)).
  assert (H1 : coro_bus_recv_body self channel out s = ((Suspended i, out), s1)).
  { rewrite recv_body_cases, Hf. cbn [is_closed data].
    rewrite park_receiver_spec. cbn [channels set_error]. now rewrite Hf. }
  assert (Hf1 : find_channel (channels s1) channel =
                Some (mkChannel cap senders [self] [] false))
    by (eapply find_channel_insert; eauto).
  assert (H2 : coro_bus_try_send channel d s1 = (0, s2)).
  { rewrite (try_send_valid_not_full _ _ _ d Hf1) by (simpl; lia).
    rewrite wakeup_first_spec. unfold s1, s2. cbn.
    fold i. now rewrite list_insert_insert_eq. }
  assert (H3 : resume_receiver self i s2 = (Again, s3)).
  { rewrite resume_receiver_spec. unfold s2 at 1. cbn [channels].
    rewrite list_lookup_insert_eq by exact Hlt.
    unfold s3, s2. cbn. rewrite Nat.eqb_refl.
    now rewrite list_insert_insert_eq. }
  assert (Hf3 : find_channel (channels s3) channel =
                Some (mkChannel cap senders [] [d] false))
    by (eapply find_channel_insert; eauto).
  assert (H4 : coro_bus_recv_body self channel out s3 = ((Returned 0, d), s4)).
  { rewrite recv_body_cases, Hf3. cbn [is_closed data].
    rewrite (try_recv_valid_nonempty _ _ _ out d [] Hf3 eq_refl).
    rewrite wakeup_first_spec, wakeup_receiver_if_data_spec.
    unfold s3, s4. cbn. fold i.
    rewrite list_insert_insert_eq, app_nil_r. unfold with_data. simpl.
    now rewrite (list_insert_id _ _ _ Hl). }
  exists s1, s2, s3, s4.
  split; [exact H1|]. split; [exact H2|]. split; [reflexivity|].
  split; [exact H3|]. split; [exact H4|]. split; [reflexivity|].
  apply returns_loop with (s1 := s);
    [cbn [op_enter coro_bus_recv]; exact (enter_valid _ _ _ Hf)|].
  apply loops_suspend with (slot := i) (s1 := s1) (b1 := out)
                           (s2 := s2) (s3 := s3);
    [exact H1| |exact H3|now apply loops_return].
  apply rtc_once. exists (ActTrySend channel d), (Returned 0).
  split; [|reflexivity]. cbn [perform]. unfold returning, bind, ret.
  now rewrite H2.
Qed.

Lemma parked_receiver_gets_the_next_message_witness :
  let s := snd (coro_bus_channel_open 1 coro_bus_new) in
  exists s4,
    returns (rtc step) (coro_bus_recv 5%nat 0) s 0%N 0 s4 8%N /\
    channels s4 = channels s.
Proof.
  intros s.
  destruct (parked_receiver_gets_the_next_message s 0 1 [] 5%nat 8%N 0%N
              eq_refl ltac:(lia))
    as (s1 & s2 & s3 & s4 & _ & _ & _ & _ & _ & Hch & Hret).
  exists s4. split; [exact Hret|exact Hch].
Defined.

(** X20.  A sender that parks on an open, full channel on which nobody else is
    waiting is served by the next receive: the receive returns 0 with the
    oldest message and wakes exactly that sender; resumed, the sender takes
    its entry out, finds room and returns 0 with its message at the back of
    the queue.  This is an execution of [coro_bus_send]. *)
Theorem parked_sender_uses_the_next_free_place
    s channel front rest receivers self d out :
  find_channel (channels s) channel =
    Some (mkChannel (S (length rest)) [] receivers (front :: rest) false) ->
  exists s1 s2 s3 s4,
    coro_bus_send_body self channel d s = (Suspended (Z.to_nat channel), s1) /\
    coro_bus_try_recv channel out s1 = ((0, front), s2) /\
    trace s2 = trace s1 ++ [EvWakeup self] /\
    resume_sender self (Z.to_nat channel) s2 = (Again, s3) /\
    coro_bus_send_body self channel d s3 = (Returned 0, s4) /\
    channels s4 =
      <[Z.to_nat channel :=
          Some (mkChannel (S (length rest)) [] receivers (rest ++ [d]) false)]>
        (channels s) /\
    returns (rtc step) (coro_bus_send self channel d) s tt 0 s4 tt.
Proof.
  intros Hf.
  pose proof (find_channel_lookup _ _ _ Hf) as Hl.
  assert (Hlt : (Z.to_nat channel < length (channels s))%nat)
    by (eapply lookup_lt_Some; eauto).
  set (i := Z.to_nat channel) in *.
  set (cap := S (length rest)) in *.
  set (s1 := mkStore
               (<[i := Some (mkChannel cap [self] receivers (front :: rest) false)]>
                  (channels s))
               CORO_BUS_ERR_WOULD_BLOCK (trace s ++ [EvSuspend])).
  set (s2 := mkStore (<[i := Some (mkChannel cap [self] receivers rest false)]>
                        (channels s))
                     CORO_BUS_ERR_WOULD_BLOCK
                     ((trace s ++ [EvSuspend]) ++ [EvWakeup self])).
  set (s3 := mkStore (<[i := Some (mkChannel cap [] receivers rest false)]>
                        (channels s))
                     CORO_BUS_ERR_WOULD_BLOCK (trace s2)).
  set (s4 := mkStore
               (<[i := Some (mkChannel cap [] receivers (rest ++ [d]) false)]>
                  (channels s))
               CORO_BUS_ERR_WOULD_BLOCK (trace s2 ++ wake_head receivers)).
  assert (H1 : coro_bus_send_body self channel d s = (Suspended i, s1)).
  { rewrite send_body_cases, Hf. cbn [is_closed data size_limit length].
    unfold cap. rewrite Nat.eqb_refl.
    rewrite park_sender_spec. cbn [channels set_error]. now rewrite Hf. }
  assert (Hf1 : find_channel (channels s1) channel =
                Some (mkChannel cap [self] receivers (front :: rest) false))
    by (eapply find_channel_insert; eauto).
  assert (H2 : coro_bus_try_recv channel out s1 = ((0, front), s2)).
  { rewrite (try_recv_valid_nonempty _ _ _ out front rest Hf1 eq_refl).
    rewrite wakeup_first_spec. unfold s1, s2. cbn.
    fold i. now rewrite list_insert_insert_eq. }
  assert (H3 : resume_sender self i s2 = (Again, s3)).
  { rewrite resume_sender_spec. unfold s2 at 1. cbn [channels].
    rewrite list_lookup_insert_eq by exact Hlt.
    unfold s3, s2. cbn. rewrite Nat.eqb_refl.
    now rewrite list_insert_insert_eq. }
  assert (Hf3 : find_channel (channels s3) channel =
                Some (mkChannel cap [] receivers rest false))
    by (eapply find_channel_insert; eauto).
  assert (Hne : cap <> length rest) by (unfold cap; lia).
  assert (H4 : coro_bus_send_body self channel d s3 = (Returned 0, s4)).
  { rewrite send_body_cases, Hf3. cbn [is_closed data size_limit].
    replace (Nat.eqb cap (length rest)) with false
      by (symmetry; now apply Nat.eqb_neq).
    rewrite (try_send_valid_not_full _ _ _ d Hf3) by exact Hne.
    rewrite wakeup_first_spec, wakeup_sender_if_room_spec.
    unfold s3, s4. cbn [fst snd channels global_error trace data with_data
      size_limit send_queue recv_queue is_closed wake_head].
    fold i. rewrite list_insert_insert_eq.
    destruct (_ <? _)%nat; now rewrite app_nil_r. }
  exists s1, s2, s3, s4.
  split; [exact H1|]. split; [exact H2|]. split; [reflexivity|].
  split; [exact H3|]. split; [exact H4|]. split; [reflexivity|].
  apply returns_loop with (s1 := s);
    [cbn [op_enter coro_bus_send]; exact (enter_valid _ _ _ Hf)|].
  apply loops_suspend with (slot := i) (s1 := s1) (b1 := tt)
                           (s2 := s2) (s3 := s3).
  - cbn [op_body coro_bus_send]. rewrite no_out_value. now rewrite H1.
  - apply rtc_once. exists (ActTryRecv channel out), (Returned 0).
    split; [|reflexivity]. cbn [perform]. unfold returning, bind, ret.
    now rewrite H2.
  - exact H3.
  - apply loops_return. cbn [op_body coro_bus_send]. rewrite no_out_value.
    now rewrite H4.
Qed.

Lemma parked_sender_uses_the_next_free_place_witness :
  let s := snd (coro_bus_try_send 0 1%N
                  (snd (coro_bus_channel_open 1 coro_bus_new))) in
  exists s4,
    returns (rtc step) (coro_bus_send 5%nat 0 2%N) s tt 0 s4 tt /\
    queue_of s4 0 = Some [2%N].
Proof.
  intros s.
  destruct (parked_sender_uses_the_next_free_place s 0 1%N [] [] 5%nat 2%N 0%N
              eq_refl)
    as (s1 & s2 & s3 & s4 & _ & _ & _ & _ & _ & Hch & Hret).
  exists s4. split; [exact Hret|]. unfold queue_of. now rewrite Hch.
Defined.
